(** * portalocker.redis: the pubsub based [RedisLock]

    A shallow embedding of [src/portalocker/redis.py] and of the exception
    classes of [src/portalocker/exceptions.py] it raises.

    The methods of [RedisLock] mutate one object ([self]) and talk to three
    outside parties: the redis client (a connection and the pubsub object it
    hands out), the worker thread of the redis client, and the [time] module.
    They are embedded in a small state-and-exception monad [Py]:

    - the state is the attribute record of [self] together with the log of
      every call made to an outside party;
    - what the outside parties answer ([get_message], [publish], [time.time])
      is given by an [Environment], a function of the calls made so far, so a
      theorem quantified over the environment speaks about every behaviour of
      the redis server and of the clock;
    - an exception leaves the attributes as they were when it was raised, as
      in Python, and [try_finally] runs its cleanup on both exits.

    Calls into the redis client are taken to return, with one exception:
    the constructor of the worker thread is called without an argument it
    requires, which is a [TypeError].  The other exceptions of the model are
    the ones the file itself raises ([LockException]) and the
    [AttributeError] of an attribute looked up on [None]. *)

From Stdlib Require Import String ZArith List Bool Lia.
From ExtLib Require Import Structures.Monad.
Import ListNotations.
Import MonadNotation.

Local Open Scope string_scope.
Local Open Scope list_scope.
Local Open Scope monad_scope.

(** ** Time values

    [time.time()] and the timeouts are Python floats.  The lock only
    subtracts two clock readings and compares the difference with the
    timeout, so the embedding is generic in the carrier and in these two
    operations. *)

Class Seconds (T : Type) : Type := {
  (** [elapsed now start] is [now - start] *)
  elapsed : T -> T -> T;
  (** [exceeds d t] is [d > t] *)
  exceeds : T -> T -> bool
}.

(** Whole seconds, used to run the model on concrete inputs. *)
#[global] Instance Seconds_Z : Seconds Z := {|
  elapsed := Z.sub;
  exceeds := Z.gtb
|}.

(** ** Objects of the redis client *)

(** A [client.Redis] object, known by its identity. *)
Definition Redis := nat.

(** A [client.PubSub] object, known by its identity. *)
Definition PubSub := nat.

(** [PubSubWorkerThread(pubsub)], with the [daemon] flag set on it. *)
Record PubSubWorkerThread : Type := {
  thread_pubsub : option PubSub;
  daemon : bool
}.

(** The dictionaries handed to [json.dumps]: [{'action': 'acquire'}] and
    [{'action': 'release'}]. *)
Inductive Action : Type := action_acquire | action_release.

(** A message as [get_message] returns it; only its ['type'] is read. *)
Record Message : Type := { type : string }.

(** ** Exceptions

    [exceptions.LockException(message)] is the one class of [exceptions.py]
    that [redis.py] raises.  [AttributeError name] is the built-in error of
    looking up [name] on [None], and [TypeError argument] the built-in error
    of a call that leaves out the required positional [argument]. *)

Inductive Exception : Type :=
| LockException (args : string)
| AttributeError (name : string)
| TypeError (argument : string).

Inductive Result (A : Type) : Type :=
| Return (a : A)
| Raise (e : Exception).
Arguments Return {A} a.
Arguments Raise {A} e.

Section RedisLock.

Context {T : Type} `{Seconds T}.

(** ** Calls to the outside, and its answers *)

Inductive Event : Type :=
| client_Redis (c : Redis)
| connection_pubsub (c : Redis) (p : PubSub)
| connection_publish (c : Redis) (channel : string) (a : Action)
| connection_close (c : Redis)
| pubsub_subscribe (p : PubSub) (channel : string)
| pubsub_get_message (p : PubSub) (timeout : T)
| pubsub_unsubscribe (p : PubSub) (channel : string)
| thread_start (t : PubSubWorkerThread)
| thread_stop (t : PubSubWorkerThread)
| time_time
| time_sleep (secs : T).

(** The log of calls, most recent call first: the calls [a] then [b] made
    on [log] leave [b :: a :: log], that is [rev [a; b] ++ log]. *)
Definition Log : Type := list Event.

(** What the outside answers, given the calls made before the one asked. *)
Record Environment : Type := {
  get_message_result : Log -> option Message;
  publish_result : Log -> Z;
  time_result : Log -> T
}.

(** ** The attributes of a [RedisLock] *)

Record RedisLock : Type := {
  close_connection : bool;
  thread : option PubSubWorkerThread;
  channel : string;
  connection : option Redis;
  pubsub : option PubSub;
  thread_sleep_time : T;
  unavailable_timeout : T;
  (* set by [utils.LockBase.__init__] *)
  timeout : option T;
  check_interval : T;
  fail_when_locked : bool
}.

Definition set_thread (v : option PubSubWorkerThread) (self : RedisLock) :=
  {| close_connection := close_connection self;
     thread := v;
     channel := channel self;
     connection := connection self;
     pubsub := pubsub self;
     thread_sleep_time := thread_sleep_time self;
     unavailable_timeout := unavailable_timeout self;
     timeout := timeout self;
     check_interval := check_interval self;
     fail_when_locked := fail_when_locked self |}.

Definition set_pubsub (v : option PubSub) (self : RedisLock) :=
  {| close_connection := close_connection self;
     thread := thread self;
     channel := channel self;
     connection := connection self;
     pubsub := v;
     thread_sleep_time := thread_sleep_time self;
     unavailable_timeout := unavailable_timeout self;
     timeout := timeout self;
     check_interval := check_interval self;
     fail_when_locked := fail_when_locked self |}.

Definition set_connection (v : option Redis) (self : RedisLock) :=
  {| close_connection := close_connection self;
     thread := thread self;
     channel := channel self;
     connection := v;
     pubsub := pubsub self;
     thread_sleep_time := thread_sleep_time self;
     unavailable_timeout := unavailable_timeout self;
     timeout := timeout self;
     check_interval := check_interval self;
     fail_when_locked := fail_when_locked self |}.

(** ** The monad *)

Definition Py (A : Type) : Type :=
  RedisLock -> Log -> Result A * RedisLock * Log.

Definition Py_ret {A} (a : A) : Py A :=
  fun self log => (Return a, self, log).

Definition Py_bind {A B} (m : Py A) (k : A -> Py B) : Py B :=
  fun self log =>
    match m self log with
    | (Return a, self', log') => k a self' log'
    | (Raise e, self', log') => (Raise e, self', log')
    end.

#[local] Instance Monad_Py : Monad Py := {|
  ret := @Py_ret;
  bind := @Py_bind
|}.

Definition raise {A} (e : Exception) : Py A :=
  fun self log => (Raise e, self, log).

(** [try: body finally: cleanup]: the cleanup runs on both exits of the
    body, and an exception of the cleanup replaces the outcome. *)
Definition try_finally {A} (body : Py A) (cleanup : Py unit) : Py A :=
  fun self log =>
    match body self log with
    | (r, self1, log1) =>
        match cleanup self1 log1 with
        | (Return _, self2, log2) => (r, self2, log2)
        | (Raise e, self2, log2) => (Raise e, self2, log2)
        end
    end.

Definition get_self : Py RedisLock :=
  fun self log => (Return self, self, log).

Definition assign (f : RedisLock -> RedisLock) : Py unit :=
  fun self log => (Return tt, f self, log).

Definition call (e : Event) : Py unit :=
  fun self log => (Return tt, self, e :: log).

Definition answer {A} (f : Log -> A) : Py A :=
  fun self log => (Return (f log), self, log).

(** [self.connection.name]: an [AttributeError] when the connection is
    [None]. *)
Definition self_connection (name : string) : Py Redis :=
  self <- get_self ;;
  match connection self with
  | Some c => ret c
  | None => raise (AttributeError name)
  end.

(** [self.pubsub.name] *)
Definition self_pubsub (name : string) : Py PubSub :=
  self <- get_self ;;
  match pubsub self with
  | Some p => ret p
  | None => raise (AttributeError name)
  end.

Variable env : Environment.

(** ** The methods *)

(** The constructor [PubSubWorkerThread] inherits (lines 13-14: the body
    of the subclass is [pass]) from redis-py:
    [__init__(self, pubsub, sleep_time, daemon=False, exception_handler=None)].
    [sleep_time] has no default, so a call that does not give it raises
    [TypeError] before any object exists. *)
Definition PubSubWorkerThread___init__ (pubsub_ : option PubSub)
    (sleep_time : option T) : Py PubSubWorkerThread :=
  match sleep_time with
  | Some _ => ret {| thread_pubsub := pubsub_; daemon := false |}
  | None => raise (TypeError "sleep_time")
  end.

(** [_start_keep_alive_thread] (lines 130-134): unless the lock already has
    a worker, [PubSubWorkerThread(self.pubsub)] is called, with the pubsub
    object as its only argument ([self.thread_sleep_time] is not passed),
    and what it returns is stored, made a daemon and started. *)
Definition _start_keep_alive_thread : Py unit :=
  self <- get_self ;;
  match thread self with
  | None =>
      t <- PubSubWorkerThread___init__ (pubsub self) None ;;
      assign (set_thread (Some t)) ;;
      let t' := {| thread_pubsub := thread_pubsub t; daemon := true |} in
      assign (set_thread (Some t')) ;;
      call (thread_start t')
  | Some _ => ret tt
  end.

(** [message is None or message['type'] == 'subscribe'] *)
Definition accepted (message : option Message) : bool :=
  match message with
  | None => true
  | Some m => String.eqb (type m) "subscribe"
  end.

(** The body of the [try] of [_try_acquire]: [Some v] when it leaves by
    [return v], [None] when it runs to its end. *)
Definition _try_acquire_body : Py (option bool) :=
  self <- get_self ;;
  p <- self_pubsub "get_message" ;;
  message <- answer (get_message_result env) ;;
  call (pubsub_get_message p (unavailable_timeout self)) ;;
  if accepted message then
    c <- self_connection "publish" ;;
    n <- answer (publish_result env) ;;
    call (connection_publish c (channel self) action_acquire) ;;
    if (n =? 1)%Z then
      _start_keep_alive_thread ;;
      ret (Some true)
    else ret None
  else ret None.

(** [_try_acquire] (lines 116-128).  The pubsub object that
    [self.connection.pubsub()] creates is known by the number of calls made
    before it, which no earlier object has.  The [finally] clause wraps the
    whole [try], the [return True] inside it included. *)
Definition _try_acquire : Py bool :=
  self <- get_self ;;
  match pubsub self with
  | None =>
      c <- self_connection "pubsub" ;;
      log <- answer (fun log => log) ;;
      let p := length log in
      call (connection_pubsub c p) ;;
      assign (set_pubsub (Some p))
  | Some _ => ret tt
  end ;;
  p <- self_pubsub "subscribe" ;;
  call (pubsub_subscribe p (channel self)) ;;
  r <- try_finally _try_acquire_body
         (p <- self_pubsub "unsubscribe" ;;
          call (pubsub_unsubscribe p (channel self))) ;;
  match r with
  | Some v => ret v
  | None => ret false
  end.

(** [release] (lines 79-90): three [if]s in a row, the [close] nested in
    the third. *)
Definition release : Py unit :=
  self <- get_self ;;
  match thread self with
  | Some t =>
      call (thread_stop t) ;;
      assign (set_thread None)
  | None => ret tt
  end ;;
  self <- get_self ;;
  match pubsub self with
  | Some p =>
      call (pubsub_unsubscribe p (channel self)) ;;
      assign (set_pubsub None)
  | None => ret tt
  end ;;
  self <- get_self ;;
  match connection self with
  | Some c =>
      call (connection_publish c (channel self) action_release) ;;
      if close_connection self then
        call (connection_close c) ;;
        assign (set_connection None)
      else ret tt
  | None => ret tt
  end.

(** [__del__] (lines 76-77) *)
Definition __del__ : Py unit := release.

(** The [while True] loop of [acquire], unrolled at most [fuel] times;
    [None] when the loop is still running after that many attempts. *)
Fixpoint acquire_loop (fuel : nat) (timeout' : option T) (check_interval' : T)
    (fail_when_locked' : bool) (start_time : T) : Py (option RedisLock) :=
  match fuel with
  | O => ret None
  | S fuel =>
      acquired <- _try_acquire ;;
      if acquired then
        self <- get_self ;;
        ret (Some self)
      else if fail_when_locked' then
        raise (LockException "Failed to acquire lock")
      else
        timed_out <-
          match timeout' with
          | None => ret false
          | Some t =>
              now <- answer (time_result env) ;;
              call time_time ;;
              ret (exceeds (elapsed now start_time) t)
          end ;;
        if timed_out then
          raise (LockException "Timeout while acquiring lock")
        else
          call (time_sleep check_interval') ;;
          acquire_loop fuel timeout' check_interval' fail_when_locked'
            start_time
  end.

(** [acquire] (lines 98-114): an argument that is [None] is replaced by the
    attribute of the same name, the clock is read, and the loop starts. *)
Definition acquire (fuel : nat) (timeout_ check_interval_ : option T)
    (fail_when_locked_ : option bool) : Py (option RedisLock) :=
  self <- get_self ;;
  let timeout' :=
    match timeout_ with None => timeout self | Some t => Some t end in
  let check_interval' :=
    match check_interval_ with None => check_interval self | Some d => d end in
  let fail_when_locked' :=
    match fail_when_locked_ with
    | None => fail_when_locked self
    | Some b => b
    end in
  start_time <- answer (time_result env) ;;
  call time_time ;;
  acquire_loop fuel timeout' check_interval' fail_when_locked' start_time.

(** [__enter__] and [__exit__] (lines 92-96) *)
Definition __enter__ (fuel : nat) : Py (option RedisLock) :=
  acquire fuel None None None.

Definition __exit__ {E V B : Type} (exc_type : E) (exc_val : V) (exc_tb : B)
  : Py unit :=
  release.

(** [utils.LockBase.__init__] is not part of this file: what it stores in
    [timeout], [check_interval] and [fail_when_locked] from the three
    constructor arguments is a parameter. *)
Variable LockBase___init__ :
  option T -> option T -> option bool -> option T * T * bool.

(** [RedisLock(channel, connection, ...)], run on the given log.  The
    [redis_kwargs] only reach [client.Redis] and are left out. *)
Definition __init__ (channel_ : string) (connection_ : option Redis)
    (timeout_ check_interval_ : option T) (fail_when_locked_ : option bool)
    (thread_sleep_time_ unavailable_timeout_ : T) (log : Log)
  : RedisLock * Log :=
  let '(base_timeout, base_check_interval, base_fail_when_locked) :=
    LockBase___init__ timeout_ check_interval_ fail_when_locked_ in
  let '(c, log1) :=
    match connection_ with
    | Some c => (c, log)
    | None => (length log, client_Redis (length log) :: log)
    end in
  let p := length log1 in
  ({| close_connection :=
        match connection_ with Some _ => false | None => true end;
      thread := None;
      channel := channel_;
      connection := Some c;
      pubsub := Some p;
      thread_sleep_time := thread_sleep_time_;
      unavailable_timeout := unavailable_timeout_;
      timeout := base_timeout;
      check_interval := base_check_interval;
      fail_when_locked := base_fail_when_locked |},
   connection_pubsub c p :: log1).

End RedisLock.

Arguments Event T : clear implicits.
Arguments Log T : clear implicits.
Arguments Environment T : clear implicits.
Arguments RedisLock T : clear implicits.
Arguments Py T A : clear implicits.

(** * What the methods are observed to do

    The definitions below are the vocabulary of the properties: the calls
    and the attributes a method is expected to leave, sequences of calls
    on one instance, and the state machine of the lock. *)

Section Observations.

Context {T : Type} `{Seconds T}.
Variable env : Environment T.

(** The [pubsub] object an attempt started on [log] works with: the one
    the lock has, or the one it asks its connection for. *)
Definition attempt_pubsub (self : RedisLock T) (log : Log T) : PubSub :=
  match pubsub self with
  | Some p => p
  | None => length log
  end.

(** The log once the attempt has subscribed, which is what its
    [get_message] is answered on. *)
Definition log_subscribed (self : RedisLock T) (c : Redis) (log : Log T)
  : Log T :=
  pubsub_subscribe (attempt_pubsub self log) (channel self)
    :: match pubsub self with
       | Some _ => log
       | None => connection_pubsub c (length log) :: log
       end.

(** The message the attempt reads. *)
Definition attempt_message (self : RedisLock T) (c : Redis) (log : Log T)
  : option Message :=
  get_message_result env (log_subscribed self c log).

(** The receiver count a [publish] right after that read is answered. *)
Definition attempt_receivers (self : RedisLock T) (c : Redis) (log : Log T)
  : Z :=
  publish_result env
    (pubsub_get_message (attempt_pubsub self log) (unavailable_timeout self)
       :: log_subscribed self c log).

(** Whether the two answers let the attempt go on to the worker: an
    accepted message and a receiver count of 1. *)
Definition attempt_acquired (self : RedisLock T) (c : Redis) (log : Log T)
  : bool :=
  accepted (attempt_message self c log)
  && (attempt_receivers self c log =? 1)%Z.

(** How the attempt ends: [False] when the answers do not pass; when they
    do, [True] if the lock already has a worker, and otherwise the
    [TypeError] of the worker's constructor. *)
Definition attempt_result (self : RedisLock T) (c : Redis) (log : Log T)
  : Result bool :=
  if attempt_acquired self c log
  then match thread self with
       | Some _ => Return true
       | None => Raise (TypeError "sleep_time")
       end
  else Return false.

(** The calls of one attempt, in the order they are made. *)
Definition attempt_calls (self : RedisLock T) (c : Redis) (log : Log T)
  : list (Event T) :=
  let p := attempt_pubsub self log in
  match pubsub self with
  | Some _ => []
  | None => [connection_pubsub c p]
  end
  ++ [pubsub_subscribe p (channel self);
      pubsub_get_message p (unavailable_timeout self)]
  ++ (if accepted (attempt_message self c log)
      then [connection_publish c (channel self) action_acquire]
      else [])
  ++ [pubsub_unsubscribe p (channel self)].

(** The attributes after one attempt: only [pubsub] can have changed. *)
Definition attempt_self (self : RedisLock T) (log : Log T) : RedisLock T :=
  set_pubsub (Some (attempt_pubsub self log)) self.

(** The four steps of [release], each with its guard, in order. *)
Definition release_calls (self : RedisLock T) : list (Event T) :=
  match thread self with
  | Some t => [thread_stop t]
  | None => []
  end
  ++ match pubsub self with
     | Some p => [pubsub_unsubscribe p (channel self)]
     | None => []
     end
  ++ match connection self with
     | Some c => [connection_publish c (channel self) action_release]
     | None => []
     end
  ++ match connection self with
     | Some c => if close_connection self then [connection_close c] else []
     | None => []
     end.

(** The attributes [release] leaves: worker and pubsub cleared, the
    connection discarded when the lock owns it. *)
Definition release_self (self : RedisLock T) : RedisLock T :=
  set_connection
    (if close_connection self then None else connection self)
    (set_pubsub None (set_thread None self)).

(** What a second [release] in a row still does. *)
Definition second_release_calls (self : RedisLock T) : list (Event T) :=
  match connection self with
  | Some c =>
      if close_connection self then []
      else [connection_publish c (channel self) action_release]
  | None => []
  end.

(** [Extends P log log']: [log'] is [log] with further calls on top, each
    of them satisfying [P]. *)
Inductive Extends (P : Event T -> Prop) (log : Log T) : Log T -> Prop :=
| Extends_same : Extends P log log
| Extends_call (e : Event T) (log' : Log T) :
    P e -> Extends P log log' -> Extends P log (e :: log').

(** The calls an attempt can make: it asks for a pubsub object,
    subscribes, reads, publishes, starts the worker, unsubscribes. *)
Definition attempt_call (e : Event T) : Prop :=
  match e with
  | connection_pubsub _ _ | pubsub_subscribe _ _ | pubsub_get_message _ _
  | connection_publish _ _ action_acquire | thread_start _
  | pubsub_unsubscribe _ _ => True
  | _ => False
  end.

(** The calls [acquire] can make once it has read the start time: those of
    its attempts, clock readings, and sleeps of [check_interval']. *)
Definition acquire_call (check_interval' : T) (e : Event T) : Prop :=
  attempt_call e \/ e = time_time \/ e = time_sleep check_interval'.

(** What a run of the loop started on [self] and [log] leaves: the
    connection, its ownership and the channel as they were; the lock
    itself as return value, with a worker, when it returns one, and the
    worker untouched otherwise; calls of [acquire] on top of the log. *)
Definition acquire_frame (check_interval' : T) (self : RedisLock T)
    (log : Log T) (out : Result (option (RedisLock T)) * RedisLock T * Log T)
  : Prop :=
  let '(r, self', log') := out in
  close_connection self' = close_connection self
  /\ connection self' = connection self
  /\ channel self' = channel self
  /\ (forall v, r = Return (Some v) -> v = self' /\ thread self' <> None)
  /\ ((forall v, r <> Return (Some v)) -> thread self' = thread self)
  /\ Extends (acquire_call check_interval') log log'.

(** ** Sequences of calls on one instance *)

(** A call of one of the three methods a user of the lock reaches:
    [acquire(timeout, check_interval, fail_when_locked)], whose loop is
    followed for [fuel] turns, [_try_acquire()] and [release()]. *)
Inductive Call : Type :=
| call_acquire (fuel : nat) (timeout_ check_interval_ : option T)
    (fail_when_locked_ : option bool)
| call__try_acquire
| call_release.

(** How a call ended.  A call of [acquire] or [_try_acquire] that raised, or
    an [acquire] whose loop is cut short by [fuel], has not acquired. *)
Inductive Outcome : Type := acquired | not_acquired | released.

(** One call on the lock, with how it ended. *)
Definition perform (c : Call) (self : RedisLock T) (log : Log T)
  : Outcome * RedisLock T * Log T :=
  match c with
  | call_acquire fuel timeout_ check_interval_ fail_when_locked_ =>
      match
        acquire env fuel timeout_ check_interval_ fail_when_locked_ self log
      with
      | (Return (Some _), self', log') => (acquired, self', log')
      | (_, self', log') => (not_acquired, self', log')
      end
  | call__try_acquire =>
      match _try_acquire env self log with
      | (Return true, self', log') => (acquired, self', log')
      | (_, self', log') => (not_acquired, self', log')
      end
  | call_release =>
      match release self log with
      | (_, self', log') => (released, self', log')
      end
  end.

(** A sequence of calls on the same instance, one after the other. *)
Fixpoint perform_all (cs : list Call) (self : RedisLock T) (log : Log T)
  : list Outcome * RedisLock T * Log T :=
  match cs with
  | [] => ([], self, log)
  | c :: cs =>
      match perform c self log with
      | (o, self1, log1) =>
          match perform_all cs self1 log1 with
          | (os, self2, log2) => (o :: os, self2, log2)
          end
      end
  end.

(** ** The state machine *)

Inductive State : Type := Released | Held.

(** The state the attributes stand for. *)
Definition state_of (self : RedisLock T) : State :=
  match thread self with
  | Some _ => Held
  | None => Released
  end.


(** The transitions of the code: an attempt that fails leaves the state as
    it was. *)
Definition next (s : State) (o : Outcome) : State :=
  match o with
  | acquired => Held
  | not_acquired => s
  | released => Released
  end.

(** A call that is no [close] of a connection, unless the lock owns its
    connection. *)
Definition close_only_if (owned : bool) (e : Event T) : Prop :=
  match e with
  | connection_close _ => owned = true
  | _ => True
  end.

(** What a call, or a sequence of calls, started on [self] and [log]
    leaves. *)
Definition call_frame (self : RedisLock T) (log : Log T)
    (self' : RedisLock T) (log' : Log T) : Prop :=
  close_connection self' = close_connection self
  /\ channel self' = channel self
  /\ (connection self' = connection self
      \/ connection self' = None /\ close_connection self = true)
  /\ Extends (close_only_if (close_connection self)) log log'.

(** [with self as v: body]: [__enter__], then the body, then [__exit__] on
    both exits of the body.  [__exit__] returns [None], so an exception of
    the body is raised again after it.  [None] when [__enter__] is cut short
    by [fuel]. *)
Definition with_statement {A : Type} (fuel : nat)
    (body : RedisLock T -> Py T A) : Py T (option A) :=
  fun self log =>
    match __enter__ env fuel self log with
    | (Return (Some v), self1, log1) =>
        match try_finally (body v) (__exit__ tt tt tt) self1 log1 with
        | (Return a, self2, log2) => (Return (Some a), self2, log2)
        | (Raise e, self2, log2) => (Raise e, self2, log2)
        end
    | (Return None, self1, log1) => (Return None, self1, log1)
    | (Raise e, self1, log1) => (Raise e, self1, log1)
    end.

(** Whether the pubsub object [p] is subscribed to the channel after the
    calls of [log]: the most recent of its subscribe and unsubscribe calls
    for that channel is a subscribe.  The lock keeps no attribute for this;
    it is what its calls leave on the redis side. *)
Fixpoint subscribed (p : PubSub) (channel_ : string) (log : Log T) : bool :=
  match log with
  | [] => false
  | pubsub_subscribe p' channel' :: log' =>
      if Nat.eqb p' p && String.eqb channel' channel_ then true
      else subscribed p channel_ log'
  | pubsub_unsubscribe p' channel' :: log' =>
      if Nat.eqb p' p && String.eqb channel' channel_ then false
      else subscribed p channel_ log'
  | _ :: log' => subscribed p channel_ log'
  end.

End Observations.

(** * Concrete runs *)

Module Example.

(** A [LockBase.__init__] that stores the timeout as given, and one second
    and [False] where the other two arguments are [None]. *)
Definition lock_base (timeout_ check_interval_ : option Z)
    (fail_when_locked_ : option bool) : option Z * Z * bool :=
  (timeout_,
   match check_interval_ with Some d => d | None => 1%Z end,
   match fail_when_locked_ with Some b => b | None => false end).

(** The clock shows as many seconds as calls were made. *)
Definition clock (log : Log Z) : Z := Z.of_nat (length log).

(** Nobody else is on the channel. *)
Definition quiet : Environment Z := {|
  get_message_result := fun _ => None;
  publish_result := fun _ => 1%Z;
  time_result := clock
|}.

(** Somebody else is subscribed: a publish reaches two receivers. *)
Definition contended : Environment Z := {|
  get_message_result := fun _ => Some {| type := "subscribe" |};
  publish_result := fun _ => 2%Z;
  time_result := clock
|}.

(** Somebody else subscribes once the first attempt is over. *)
Definition contended_later : Environment Z := {|
  get_message_result := fun _ => None;
  publish_result := fun log => if (length log <=? 5)%nat then 1%Z else 2%Z;
  time_result := clock
|}.

(** [RedisLock("jobs")]: the lock creates its connection. *)
Definition owning : RedisLock Z :=
  fst (__init__ lock_base "jobs" None None None None 1%Z 1%Z []).

(** [RedisLock("jobs", connection)] with the connection [7]. *)
Definition borrowing : RedisLock Z :=
  fst (__init__ lock_base "jobs" (Some 7) None None None 1%Z 1%Z []).

End Example.

(** * The rest of the two files *)

(** ** exceptions.py: the classes *)

Module ExceptionsPy.

(** The four classes of [exceptions.py] and the built-in [Exception] the
    first of them derives from. *)
Inductive Class : Type :=
| Exception_builtin
| BaseLockException
| LockException
| AlreadyLocked
| FileToLarge.

(** The base named in each [class] statement. *)
Definition base (c : Class) : option Class :=
  match c with
  | Exception_builtin => None
  | BaseLockException => Some Exception_builtin
  | LockException => Some BaseLockException
  | AlreadyLocked => Some LockException
  | FileToLarge => Some LockException
  end.

Definition Class_eqb (c d : Class) : bool :=
  match c, d with
  | Exception_builtin, Exception_builtin
  | BaseLockException, BaseLockException
  | LockException, LockException
  | AlreadyLocked, AlreadyLocked
  | FileToLarge, FileToLarge => true
  | _, _ => false
  end.

(** The class and its bases, nearest first, following [base] at most
    [fuel] times. *)
Fixpoint mro_from (fuel : nat) (c : Class) : list Class :=
  match fuel with
  | O => []
  | S fuel =>
      c :: match base c with
           | Some b => mro_from fuel b
           | None => []
           end
  end.

(** Five classes: no chain of bases is longer. *)
Definition mro (c : Class) : list Class := mro_from 5 c.

(** [issubclass(c, d)], which is also whether [except d:] catches an
    instance of [c]. *)
Definition issubclass (c d : Class) : bool := existsb (Class_eqb d) (mro c).

(** The attributes a class body defines: [LOCK_FAILED = 1] in
    [BaseLockException]; the three other bodies are [pass]. *)
Definition class_attribute (c : Class) (name : string) : option Z :=
  match c with
  | BaseLockException =>
      if String.eqb name "LOCK_FAILED" then Some 1%Z else None
  | _ => None
  end.

(** [c.name]: the attribute of the first class of the [mro] that defines
    it. *)
Definition getattr (c : Class) (name : string) : option Z :=
  fold_right
    (fun k found =>
       match class_attribute k name with
       | Some v => Some v
       | None => found
       end)
    None (mro c).

End ExceptionsPy.

(** ** redis.py: the [redis_kwargs] of the constructor (lines 59, 68-70) *)

Section Dict.

Variable V : Type.

(** A dictionary with string keys, in insertion order, one entry a key. *)
Definition Dict : Type := list (string * V).

(** [d.get(key)] *)
Fixpoint get (d : Dict) (key : string) : option V :=
  match d with
  | [] => None
  | (k, v) :: d' => if String.eqb k key then Some v else get d' key
  end.

(** [d.setdefault(key, value)]: an entry there is left alone, a missing
    one is added at the end. *)
Fixpoint setdefault (key : string) (value : V) (d : Dict) : Dict :=
  match d with
  | [] => [(key, value)]
  | (k, v) :: d' =>
      if String.eqb k key then (k, v) :: d'
      else (k, v) :: setdefault key value d'
  end.

(** [for key, value in defaults.items(): d.setdefault(key, value)] *)
Definition setdefaults (defaults d : Dict) : Dict :=
  fold_left (fun d kv => setdefault (fst kv) (snd kv) d) defaults d.

(** [redis_kwargs or dict()]: [None] and the empty dictionary are both
    replaced by a new empty one. *)
Definition or_dict (redis_kwargs : option Dict) : Dict :=
  match redis_kwargs with
  | None => []
  | Some [] => []
  | Some d => d
  end.

End Dict.

Arguments get {V} d key.
Arguments setdefault {V} key value d.
Arguments setdefaults {V} defaults d.
Arguments or_dict {V} redis_kwargs.

(** The values keyword arguments of [client.Redis] take. *)
Inductive Value : Type :=
| value_int (z : Z)
| value_str (s : string)
| value_bool (b : bool)
| value_None.

(** [DEFAULT_REDIS_KWARGS = dict(health_check_interval=10)] *)
Definition DEFAULT_REDIS_KWARGS : Dict Value :=
  [("health_check_interval", value_int 10)].

(** What lines 68-70 of [__init__] leave in [self.redis_kwargs]. *)
Definition redis_kwargs___init__ (redis_kwargs : option (Dict Value))
  : Dict Value :=
  setdefaults DEFAULT_REDIS_KWARGS (or_dict redis_kwargs).

(** ** Readings of the log *)

Section Readings.

Context {T : Type}.

(** Workers started minus workers stopped. *)
Fixpoint worker_balance (log : Log T) : Z :=
  match log with
  | [] => 0
  | thread_start _ :: log' => worker_balance log' + 1
  | thread_stop _ :: log' => worker_balance log' - 1
  | _ :: log' => worker_balance log'
  end.

(** The pubsub objects subscribed to the channel after the calls of [log],
    as the redis server keeps them: a subscribe adds the object, an
    unsubscribe removes it. *)
Fixpoint subscribers (channel_ : string) (log : Log T) : list PubSub :=
  match log with
  | [] => []
  | pubsub_subscribe p channel' :: log' =>
      if String.eqb channel' channel_
         && negb (existsb (Nat.eqb p) (subscribers channel_ log'))
      then p :: subscribers channel_ log'
      else subscribers channel_ log'
  | pubsub_unsubscribe p channel' :: log' =>
      if String.eqb channel' channel_
      then filter (fun q => negb (Nat.eqb q p)) (subscribers channel_ log')
      else subscribers channel_ log'
  | _ :: log' => subscribers channel_ log'
  end.

Definition is_sleep (e : Event T) : bool :=
  match e with
  | time_sleep _ => true
  | _ => false
  end.

Definition is_subscribe (e : Event T) : bool :=
  match e with
  | pubsub_subscribe _ _ => true
  | _ => false
  end.

(** How many calls of a kind the log holds. *)
Definition count_calls (kind : Event T -> bool) (log : Log T) : nat :=
  length (filter kind log).

(** The attributes that configure the lock. *)
Definition same_settings (self self' : RedisLock T) : Prop :=
  channel self' = channel self
  /\ close_connection self' = close_connection self
  /\ timeout self' = timeout self
  /\ check_interval self' = check_interval self
  /\ fail_when_locked self' = fail_when_locked self
  /\ thread_sleep_time self' = thread_sleep_time self
  /\ unavailable_timeout self' = unavailable_timeout self.

Definition is_thread_start (e : Event T) : bool :=
  match e with
  | thread_start _ => true
  | _ => false
  end.

End Readings.

Section Answers.

Context {T : Type}.
Variable env : Environment T.

(** What the most recent publish of an acquire notification was answered,
    if the log holds one. *)
Fixpoint last_acquire_answer (log : Log T) : option Z :=
  match log with
  | [] => None
  | connection_publish _ _ action_acquire :: log' =>
      Some (publish_result env log')
  | _ :: log' => last_acquire_answer log'
  end.

End Answers.

(** ** Further concrete runs *)

Module Example2.

(** A redis server that answers a publish on ["jobs"] with the number of
    pubsub objects subscribed to it. *)
Definition counting : Environment Z := {|
  get_message_result := fun _ => None;
  publish_result := fun log => Z.of_nat (length (subscribers "jobs" log));
  time_result := Example.clock
|}.

(** A second [RedisLock("jobs", connection)], with its own connection [8]
    and pubsub object [1]. *)
Definition other : RedisLock Z := {|
  close_connection := false;
  thread := None;
  channel := "jobs";
  connection := Some 8;
  pubsub := Some 1;
  thread_sleep_time := 1%Z;
  unavailable_timeout := 1%Z;
  timeout := None;
  check_interval := 1%Z;
  fail_when_locked := false
|}.

(** The lock of [Example.borrowing] with a worker put in [thread] by hand,
    built the way redis-py requires:
    [lock.thread = PubSubWorkerThread(lock.pubsub, 0.1)]. *)
Definition with_worker : RedisLock Z :=
  set_thread (Some {| thread_pubsub := Some 0; daemon := false |})
    Example.borrowing.

(** An attempt, a release and another attempt. *)
Definition calls : list (@Call Z) :=
  [call__try_acquire; call_release; call__try_acquire].

End Example2.

(** * Properties *)

(** Unfolds the methods and the monad down to the attribute record and the
    log. *)
Ltac run_py :=
  cbv beta iota zeta delta
    [ release __del__ __exit__ __enter__ acquire _try_acquire
      _try_acquire_body _start_keep_alive_thread PubSubWorkerThread___init__
      self_connection self_pubsub
      try_finally get_self assign call answer raise
      bind ret Monad_Py Py_bind Py_ret
      set_thread set_pubsub set_connection
      close_connection thread channel connection pubsub thread_sleep_time
      unavailable_timeout timeout check_interval fail_when_locked ].

Section Attempt.

Context {T : Type} `{Seconds T}.
Variable env : Environment T.

Lemma accepted_spec (message : option Message) :
  accepted message = true <->
  message = None \/ exists m, message = Some m /\ type m = "subscribe".
Proof.
  destruct message as [m|]; simpl.
  - rewrite String.eqb_eq. split.
    + intros E. right. exists m. auto.
    + intros [E | [m' [E1 E2]]]; [discriminate | congruence].
  - split; auto.
Qed.

(** One attempt of a lock that has its connection, in full: how it ends,
    the attributes it leaves, and the calls it makes. *)
Lemma _try_acquire_run (self : RedisLock T) (log : Log T) (c : Redis) :
  connection self = Some c ->
  _try_acquire env self log =
  (attempt_result env self c log,
   attempt_self self log,
   rev (attempt_calls env self c log) ++ log).
Proof.
  intros Hc.
  unfold attempt_result, attempt_self, attempt_calls, attempt_acquired,
    attempt_message, attempt_receivers, log_subscribed, attempt_pubsub.
  destruct self as [cc th ch co ps tst ut to ci fwl]. simpl in Hc. subst co.
  run_py.
  destruct ps as [p|]; cbn;
    match goal with
    | |- context [accepted ?m] => destruct (accepted m)
    end; cbn; try reflexivity;
    match goal with
    | |- context [(?n =? 1)%Z] => destruct (n =? 1)%Z
    end; cbn; try reflexivity;
    destruct th; reflexivity.
Qed.

(** An attempt of a lock without connection and without pubsub object
    stops at [self.connection.pubsub()]. *)
Lemma _try_acquire_no_connection (self : RedisLock T) (log : Log T) :
  connection self = None -> pubsub self = None ->
  _try_acquire env self log = (Raise (AttributeError "pubsub"), self, log).
Proof.
  intros Hc Hp.
  destruct self as [cc th ch co ps tst ut to ci fwl]. simpl in Hc, Hp.
  subst co ps. reflexivity.
Qed.

(** The three ways an attempt of a lock with its connection ends, by the
    message read, the receiver count and the worker the lock has. *)
Lemma _try_acquire_result_iff (self : RedisLock T) (log : Log T) (c : Redis) :
  connection self = Some c ->
  let message := attempt_message env self c log in
  let receivers := attempt_receivers env self c log in
  let result := fst (fst (_try_acquire env self log)) in
  let passes :=
    (message = None \/ exists m, message = Some m /\ type m = "subscribe")
    /\ receivers = 1%Z in
  (result = Return true <-> passes /\ thread self <> None)
  /\ (result = Raise (TypeError "sleep_time") <-> passes /\ thread self = None)
  /\ (result = Return false <-> ~ passes).
Proof.
  intros Hc message receivers result passes.
  assert (Hres : result = attempt_result env self c log).
  { unfold result. rewrite (_try_acquire_run self log c Hc). reflexivity. }
  assert (Hp : attempt_acquired env self c log = true <-> passes).
  { unfold attempt_acquired, passes. rewrite andb_true_iff, accepted_spec.
    rewrite Z.eqb_eq. reflexivity. }
  rewrite Hres. unfold attempt_result.
  destruct (attempt_acquired env self c log).
  - assert (P : passes) by (apply Hp; reflexivity).
    clearbody passes. clear Hp Hres.
    destruct (thread self) as [t|];
      intuition (try discriminate; try congruence).
  - assert (N : ~ passes) by (intros P; apply Hp in P; discriminate P).
    clearbody passes. clear Hp Hres.
    intuition (try discriminate; try congruence).
Qed.

End Attempt.

Section Release.

Context {T : Type}.

(** [release], in full. *)
Lemma release_run (self : RedisLock T) (log : Log T) :
  release self log =
  (Return tt, release_self self, rev (release_calls self) ++ log).
Proof.
  unfold release_self, release_calls.
  destruct self as [cc th ch co ps tst ut to ci fwl].
  run_py. destruct th, ps, co, cc; reflexivity.
Qed.

(** C6: from every state of the lock, [release] returns without raising,
    after making exactly the calls of its four guarded steps in order:
    stop the worker if there is one (and clear it), unsubscribe the pubsub
    object if there is one (and clear it), publish the release notification
    if the connection is present, close the connection if it is present and
    owned (and discard it). *)
Theorem release_sequence (self : RedisLock T) (log : Log T) :
  release self log =
  (Return tt, release_self self, rev (release_calls self) ++ log).
Proof. apply release_run. Qed.

Lemma release_self_idempotent (self : RedisLock T) :
  release_self (release_self self) = release_self self.
Proof.
  destruct self as [cc th ch co ps tst ut to ci fwl].
  unfold release_self. simpl. destruct cc; reflexivity.
Qed.

Lemma release_calls_release_self (self : RedisLock T) :
  release_calls (release_self self) = second_release_calls self.
Proof.
  destruct self as [cc th ch co ps tst ut to ci fwl].
  unfold release_self, release_calls, second_release_calls. simpl.
  destruct cc, co; reflexivity.
Qed.

(** C7, as the code has it: the second of two [release] calls in a row
    raises nothing, leaves the attributes as the first call left them, and
    stops no worker, unsubscribes nothing and closes nothing.  It makes no
    call at all when the lock owns its connection (or has none); when the
    connection was supplied by the caller it is still present, and the
    second call publishes the release notification once more. *)
Theorem release_twice (self : RedisLock T) (log : Log T) :
  let '(_, self1, log1) := release self log in
  release self1 log1 =
  (Return tt, self1, rev (second_release_calls self) ++ log1).
Proof.
  rewrite release_run, release_run.
  rewrite release_self_idempotent, release_calls_release_self.
  reflexivity.
Qed.

End Release.

Section Frame.

Context {T : Type} `{Seconds T}.
Variable env : Environment T.

Lemma Extends_trans (P : Event T -> Prop) (log1 log2 log3 : Log T) :
  Extends P log1 log2 -> Extends P log2 log3 -> Extends P log1 log3.
Proof.
  intros H12 H23. induction H23 as [|e log' He _ IH].
  - exact H12.
  - apply Extends_call; assumption.
Qed.

Lemma Extends_weaken (P Q : Event T -> Prop) (log log' : Log T) :
  (forall e, P e -> Q e) -> Extends P log log' -> Extends Q log log'.
Proof.
  intros HPQ HE. induction HE as [|e log' He _ IH].
  - apply Extends_same.
  - apply Extends_call; auto.
Qed.

Lemma Extends_app (P : Event T -> Prop) (log log' : Log T) :
  Extends P log log' <->
  exists calls, log' = calls ++ log /\ Forall P calls.
Proof.
  split.
  - intros HE. induction HE as [|e log' He _ [calls [E F]]].
    + exists []. split; [reflexivity | constructor].
    + exists (e :: calls). subst log'. split; [reflexivity|].
      constructor; assumption.
  - intros [calls [E F]]. subst log'.
    induction F as [|e calls He _ IH]; simpl.
    + apply Extends_same.
    + apply Extends_call; assumption.
Qed.

(** One attempt of any lock, with or without connection: the attributes it
    can change are [pubsub] and, only when it returns [True], [thread]. *)
Lemma _try_acquire_frame (self : RedisLock T) (log : Log T) :
  let '(r, self', log') := _try_acquire env self log in
  close_connection self' = close_connection self
  /\ connection self' = connection self
  /\ channel self' = channel self
  /\ (r = Return true -> thread self' <> None)
  /\ (r <> Return true -> thread self' = thread self)
  /\ Extends attempt_call log log'.
Proof.
  destruct self as [cc th ch co ps tst ut to ci fwl].
  run_py.
  destruct ps as [p|], co as [c|]; cbn;
    repeat match goal with
      | |- context [accepted ?m] => destruct (accepted m); cbn
      | |- context [(?n =? 1)%Z] => destruct (n =? 1)%Z; cbn
      end;
    try destruct th; cbn;
    repeat split; try congruence;
    repeat (first [apply Extends_same | apply Extends_call; [exact I|]]).
Qed.

(** One turn of the [while True] loop of [acquire], by the outcome of its
    attempt. *)
Lemma acquire_loop_S (fuel : nat) (timeout' : option T) (check_interval' : T)
    (fail_when_locked' : bool) (start_time : T)
    (self : RedisLock T) (log : Log T) :
  acquire_loop env (S fuel) timeout' check_interval' fail_when_locked'
    start_time self log =
  match _try_acquire env self log with
  | (Return true, self1, log1) => (Return (Some self1), self1, log1)
  | (Return false, self1, log1) =>
      if fail_when_locked' then
        (Raise (LockException "Failed to acquire lock"), self1, log1)
      else
        match timeout' with
        | Some t =>
            if exceeds (elapsed (time_result env log1) start_time) t then
              (Raise (LockException "Timeout while acquiring lock"),
               self1, time_time :: log1)
            else
              acquire_loop env fuel timeout' check_interval'
                fail_when_locked' start_time self1
                (time_sleep check_interval' :: time_time :: log1)
        | None =>
            acquire_loop env fuel timeout' check_interval'
              fail_when_locked' start_time self1
              (time_sleep check_interval' :: log1)
        end
  | (Raise e, self1, log1) => (Raise e, self1, log1)
  end.
Proof.
  cbn [acquire_loop]. unfold bind, Monad_Py, Py_bind at 1.
  destruct (_try_acquire env self log) as [[[[|]|e] self1] log1];
    [reflexivity | | reflexivity].
  destruct fail_when_locked'; [reflexivity|].
  destruct timeout' as [t|]; cbn;
    [destruct (exceeds _ t)|]; reflexivity.
Qed.

(** [acquire] reads the clock once and enters the loop with the arguments
    it was given, or the attributes of the lock where they are [None]. *)
Lemma acquire_unfold (fuel : nat) (timeout_ check_interval_ : option T)
    (fail_when_locked_ : option bool) (self : RedisLock T) (log : Log T) :
  acquire env fuel timeout_ check_interval_ fail_when_locked_ self log =
  acquire_loop env fuel
    match timeout_ with None => timeout self | Some t => Some t end
    match check_interval_ with None => check_interval self | Some d => d end
    match fail_when_locked_ with
    | None => fail_when_locked self
    | Some b => b
    end
    (time_result env log) self (time_time :: log).
Proof. reflexivity. Qed.

Lemma acquire_frame_trans (check_interval' : T) (self self1 : RedisLock T)
    (log log1 : Log T)
    (out : Result (option (RedisLock T)) * RedisLock T * Log T) :
  close_connection self1 = close_connection self ->
  connection self1 = connection self ->
  channel self1 = channel self ->
  thread self1 = thread self ->
  Extends (acquire_call check_interval') log log1 ->
  acquire_frame check_interval' self1 log1 out ->
  acquire_frame check_interval' self log out.
Proof.
  intros Fcc Fco Fch Fth Flog. destruct out as [[r self'] log'].
  intros (Icc & Ico & Ich & Iok & Iko & Ilog).
  repeat split; try congruence.
  - apply Iok. assumption.
  - apply Iok with (v := v). assumption.
  - intros N. rewrite (Iko N). assumption.
  - apply Extends_trans with (log2 := log1); assumption.
Qed.

Lemma acquire_frame_Raise (check_interval' : T) (self : RedisLock T)
    (log log' : Log T) (e : Exception) :
  Extends (acquire_call check_interval') log log' ->
  acquire_frame check_interval' self log (Raise e, self, log').
Proof. intros E. repeat split; congruence. Qed.

(** The loop of [acquire], for any number of turns. *)
Lemma acquire_loop_frame (fuel : nat) (timeout' : option T)
    (check_interval' : T) (fail_when_locked' : bool) (start_time : T)
    (self : RedisLock T) (log : Log T) :
  acquire_frame check_interval' self log
    (acquire_loop env fuel timeout' check_interval' fail_when_locked'
       start_time self log).
Proof.
  revert self log. induction fuel as [|fuel IH]; intros self log.
  - cbn. repeat split; try congruence. apply Extends_same.
  - rewrite acquire_loop_S.
    pose proof (_try_acquire_frame self log) as F.
    destruct (_try_acquire env self log) as [[r self1] log1].
    destruct F as (Fcc & Fco & Fch & Fok & Fko & Flog).
    assert (Flog' : Extends (acquire_call check_interval') log log1).
    { apply Extends_weaken with (P := attempt_call); [|exact Flog].
      intros e He. left. exact He. }
    destruct r as [[|]|e].
    + repeat split; try assumption.
      * congruence.
      * auto.
      * intros N. exfalso. apply (N self1). reflexivity.
    + assert (Fth : thread self1 = thread self) by (apply Fko; congruence).
      apply acquire_frame_trans with (self1 := self1) (log1 := log1);
        try assumption.
      destruct fail_when_locked'.
      { apply acquire_frame_Raise, Extends_same. }
      destruct timeout' as [t|]; [destruct (exceeds _ t)|].
      * apply acquire_frame_Raise.
        apply Extends_call; [right; left; reflexivity | apply Extends_same].
      * apply acquire_frame_trans with (self1 := self1)
          (log1 := time_sleep check_interval' :: time_time :: log1);
          try reflexivity; [|apply IH].
        apply Extends_call; [right; right; reflexivity|].
        apply Extends_call; [right; left; reflexivity | apply Extends_same].
      * apply acquire_frame_trans with (self1 := self1)
          (log1 := time_sleep check_interval' :: log1);
          try reflexivity; [|apply IH].
        apply Extends_call; [right; right; reflexivity | apply Extends_same].
    + assert (Fth : thread self1 = thread self) by (apply Fko; congruence).
      apply acquire_frame_trans with (self1 := self1) (log1 := log1);
        try assumption.
      apply acquire_frame_Raise, Extends_same.
Qed.

(** C4: when [fail_when_locked] is in force (given as argument, or taken
    from the lock when the argument is [None]) and the first attempt returns
    [False], [acquire] raises [LockException("Failed to acquire lock")] right
    there: the lock and the log are the ones that first attempt left, so no
    clock reading, no sleep and no second attempt follow it, and since the
    start time was read the log only holds calls of that one attempt. *)
Theorem acquire_fail_when_locked (fuel : nat)
    (timeout_ check_interval_ : option T) (fail_when_locked_ : option bool)
    (self self1 : RedisLock T) (log log1 : Log T) :
  match fail_when_locked_ with
  | None => fail_when_locked self
  | Some b => b
  end = true ->
  _try_acquire env self (time_time :: log) = (Return false, self1, log1) ->
  acquire env (S fuel) timeout_ check_interval_ fail_when_locked_ self log =
  (Raise (LockException "Failed to acquire lock"), self1, log1)
  /\ Extends attempt_call (time_time :: log) log1.
Proof.
  intros Hfwl Hattempt. split.
  - rewrite acquire_unfold, acquire_loop_S, Hattempt, Hfwl. reflexivity.
  - pose proof (_try_acquire_frame self (time_time :: log)) as F.
    rewrite Hattempt in F. apply F.
Qed.

(** C5: a turn of the loop of [acquire] with [fail_when_locked] false, whose
    attempt returned.  If the attempt returned [True] the loop returns the
    lock.  If it returned [False]: when the timeout is not [None] the clock
    is read, and if the time elapsed since [start_time] exceeds the timeout
    [LockException("Timeout while acquiring lock")] is raised; in every other
    case (no timeout, or not exceeded) the loop sleeps [check_interval'] and
    goes round again with the same timeout, the same interval and the same
    start time.  In a whole run, of any length, the calls made on top of
    the log are those of attempts, clock readings and sleeps of exactly
    [check_interval'] ([acquire_call]).  [acquire] enters the loop with the
    clock reading it took first as [start_time]. *)
Theorem acquire_loop_turn (fuel : nat) (timeout' : option T)
    (check_interval' : T) (start_time : T) (acquired : bool)
    (self self1 : RedisLock T) (log log1 : Log T) :
  _try_acquire env self log = (Return acquired, self1, log1) ->
  acquire_loop env (S fuel) timeout' check_interval' false start_time self log
  = (if acquired then (Return (Some self1), self1, log1)
     else
       match timeout' with
       | Some t =>
           if exceeds (elapsed (time_result env log1) start_time) t then
             (Raise (LockException "Timeout while acquiring lock"),
              self1, time_time :: log1)
           else
             acquire_loop env fuel timeout' check_interval' false start_time
               self1 (time_sleep check_interval' :: time_time :: log1)
       | None =>
           acquire_loop env fuel timeout' check_interval' false start_time
             self1 (time_sleep check_interval' :: log1)
       end)
  /\ Extends (acquire_call check_interval') log
       (snd (acquire_loop env (S fuel) timeout' check_interval' false
               start_time self log))
  /\ (forall timeout_ check_interval_ fail_when_locked_,
        acquire env (S fuel) timeout_ check_interval_ fail_when_locked_
          self log =
        acquire_loop env (S fuel)
          match timeout_ with None => timeout self | Some t => Some t end
          match check_interval_ with
          | None => check_interval self
          | Some d => d
          end
          match fail_when_locked_ with
          | None => fail_when_locked self
          | Some b => b
          end
          (time_result env log) self (time_time :: log)).
Proof.
  intros Hattempt. split; [|split].
  - rewrite acquire_loop_S, Hattempt. destruct acquired; reflexivity.
  - pose proof (acquire_loop_frame (S fuel) timeout' check_interval' false
                  start_time self log) as F.
    destruct (acquire_loop env (S fuel) timeout' check_interval' false
                start_time self log) as [[r self'] log'].
    apply F.
  - intros. apply acquire_unfold.
Qed.

End Frame.

Section Calls.

Context {T : Type} `{Seconds T}.
Variable env : Environment T.

Lemma call_frame_refl (self : RedisLock T) (log : Log T) :
  call_frame self log self log.
Proof. repeat split; auto. apply Extends_same. Qed.

Lemma call_frame_trans (self self1 self2 : RedisLock T)
    (log log1 log2 : Log T) :
  call_frame self log self1 log1 -> call_frame self1 log1 self2 log2 ->
  call_frame self log self2 log2.
Proof.
  intros (Acc & Ach & Aco & Alog) (Bcc & Bch & Bco & Blog).
  rewrite Acc in Blog, Bco.
  repeat split; try congruence.
  - destruct Bco as [B | [B1 B2]]; [rewrite B; exact Aco | right; auto].
  - apply Extends_trans with (log2 := log1); assumption.
Qed.

Lemma attempt_call_close_only_if (owned : bool) (e : Event T) :
  attempt_call e -> close_only_if owned e.
Proof. destruct e; simpl; auto; intros []. Qed.

Lemma acquire_call_close_only_if (owned : bool) (d : T) (e : Event T) :
  acquire_call d e -> close_only_if owned e.
Proof.
  intros [A | [A | A]].
  - apply attempt_call_close_only_if. exact A.
  - subst e. exact I.
  - subst e. exact I.
Qed.

Lemma perform_frame (c : Call) (self : RedisLock T) (log : Log T) :
  let '(o, self', log') := perform env c self log in
  call_frame self log self' log' /\ state_of self' = next (state_of self) o.
Proof.
  destruct c as [fuel t ci f | |]; cbn [perform].
  - rewrite acquire_unfold.
    match goal with
    | |- context [acquire_loop env fuel ?t' ?ci' ?f' ?st self ?l] =>
        pose proof (acquire_loop_frame env fuel t' ci' f' st self l) as F;
        destruct (acquire_loop env fuel t' ci' f' st self l)
          as [[r self'] log']
    end.
    destruct F as (Fcc & Fco & Fch & Fok & Fko & Flog).
    assert (Fframe : call_frame self log self' log').
    { repeat split; auto.
      apply Extends_trans with (log2 := time_time :: log).
      - apply Extends_call; [exact I | apply Extends_same].
      - eapply Extends_weaken; [|exact Flog].
        apply acquire_call_close_only_if. }
    unfold state_of.
    destruct r as [[v|]|e]; (split; [exact Fframe|]); cbn [next].
    + destruct (Fok v eq_refl) as [_ Hth].
      destruct (thread self'); [reflexivity | contradiction].
    + rewrite Fko; [reflexivity | congruence].
    + rewrite Fko; [reflexivity | congruence].
  - pose proof (_try_acquire_frame env self log) as F.
    destruct (_try_acquire env self log) as [[r self'] log'].
    destruct F as (Fcc & Fco & Fch & Fok & Fko & Flog).
    assert (Fframe : call_frame self log self' log').
    { repeat split; auto.
      eapply Extends_weaken; [|exact Flog].
      apply attempt_call_close_only_if. }
    unfold state_of.
    destruct r as [[|]|e]; (split; [exact Fframe|]); cbn [next].
    + destruct (thread self'); [reflexivity|].
      exfalso. apply Fok; reflexivity.
    + rewrite Fko; [reflexivity | congruence].
    + rewrite Fko; [reflexivity | congruence].
  - rewrite release_run. split; [|reflexivity].
    destruct self as [cc th ch co ps tst ut to ci fwl].
    unfold call_frame, release_self, release_calls. simpl.
    repeat split.
    + destruct cc; auto.
    + destruct th, ps, co, cc; simpl;
        repeat (first [apply Extends_same
                      | apply Extends_call; [simpl; auto|]]).
Qed.

Lemma perform_all_frame (cs : list Call) (self : RedisLock T) (log : Log T) :
  let '(os, self', log') := perform_all env cs self log in
  call_frame self log self' log'
  /\ state_of self' = fold_left next os (state_of self).
Proof.
  revert self log. induction cs as [|c cs IH]; intros self log.
  - cbn. split; [apply call_frame_refl | reflexivity].
  - cbn [perform_all].
    pose proof (perform_frame c self log) as F.
    destruct (perform env c self log) as [[o self1] log1].
    specialize (IH self1 log1).
    destruct (perform_all env cs self1 log1) as [[os self2] log2].
    destruct F as [F1 F2], IH as [I1 I2]. split.
    + eapply call_frame_trans; eassumption.
    + cbn [fold_left]. rewrite <- F2. exact I2.
Qed.

(** An attempt never changes [thread], and returns [True] only on a lock
    that has a worker already. *)
Lemma _try_acquire_thread (self : RedisLock T) (log : Log T) :
  let '(r, self', _) := _try_acquire env self log in
  thread self' = thread self /\ (r = Return true -> thread self <> None).
Proof.
  destruct self as [cc th ch co ps tst ut to ci fwl]. cbn [thread].
  run_py.
  destruct ps as [p|], co as [c|]; cbn;
    repeat match goal with
      | |- context [accepted ?m] => destruct (accepted m); cbn
      | |- context [(?n =? 1)%Z] => destruct (n =? 1)%Z; cbn
      end;
    try destruct th; cbn; split; congruence.
Qed.

(** Neither does the loop of [acquire]. *)
Lemma acquire_loop_thread (fuel : nat) (timeout' : option T)
    (check_interval' : T) (fail_when_locked' : bool) (start_time : T)
    (self : RedisLock T) (log : Log T) :
  let '(r, self', _) :=
    acquire_loop env fuel timeout' check_interval' fail_when_locked'
      start_time self log in
  thread self' = thread self
  /\ (forall v, r = Return (Some v) -> thread self <> None).
Proof.
  revert self log. induction fuel as [|fuel IH]; intros self log.
  - cbn. split; [reflexivity | intros v E; discriminate E].
  - rewrite acquire_loop_S.
    pose proof (_try_acquire_thread self log) as A.
    destruct (_try_acquire env self log) as [[r self1] log1].
    destruct A as [A1 A2].
    assert (Again : forall log2,
               let '(r, self', _) :=
                 acquire_loop env fuel timeout' check_interval'
                   fail_when_locked' start_time self1 log2 in
               thread self' = thread self
               /\ (forall v, r = Return (Some v) -> thread self <> None)).
    { intros log2. specialize (IH self1 log2).
      destruct (acquire_loop env fuel timeout' check_interval'
                  fail_when_locked' start_time self1 log2)
        as [[r' self'] log'].
      destruct IH as [I1 I2]. rewrite <- A1. split; [exact I1 | exact I2]. }
    destruct r as [[|]|e].
    + split; [exact A1 | intros _ _; apply A2; reflexivity].
    + destruct fail_when_locked'.
      { split; [exact A1 | intros v E; discriminate E]. }
      destruct timeout' as [t|]; [destruct (exceeds _ t)|]; try apply Again.
      split; [exact A1 | intros v E; discriminate E].
    + split; [exact A1 | intros v E; discriminate E].
Qed.

(** A call reports the lock acquired only if it had a worker before; only
    [release] changes [thread], to [None]. *)
Lemma perform_thread (c : Call) (self : RedisLock T) (log : Log T) :
  let '(o, self', _) := perform env c self log in
  (o = acquired -> thread self <> None)
  /\ (o <> released -> thread self' = thread self)
  /\ (o = released -> thread self' = None).
Proof.
  destruct c as [fuel t ci f | |]; cbn [perform].
  - rewrite acquire_unfold.
    match goal with
    | |- context [acquire_loop env fuel ?t' ?ci' ?f' ?st self ?l] =>
        pose proof (acquire_loop_thread fuel t' ci' f' st self l) as A;
        destruct (acquire_loop env fuel t' ci' f' st self l)
          as [[r self'] log']
    end.
    destruct A as [A1 A2].
    destruct r as [[v|]|e]; repeat split; try congruence.
    intros _. apply (A2 v). reflexivity.
  - pose proof (_try_acquire_thread self log) as A.
    destruct (_try_acquire env self log) as [[r self'] log'].
    destruct A as [A1 A2].
    destruct r as [[|]|e]; repeat split; try congruence.
    intros _. apply A2. reflexivity.
  - rewrite release_run. repeat split; try congruence.
Qed.

(** From a lock without worker, no sequence of calls reports the lock
    acquired, and the lock stays without worker. *)
Lemma never_acquired (cs : list Call) (self : RedisLock T) (log : Log T) :
  thread self = None ->
  let '(os, self', _) := perform_all env cs self log in
  thread self' = None /\ ~ In acquired os.
Proof.
  revert self log. induction cs as [|c cs IH]; intros self log Hth.
  - cbn. split; [exact Hth | intros []].
  - cbn [perform_all].
    pose proof (perform_thread c self log) as P.
    destruct (perform env c self log) as [[o self1] log1].
    destruct P as (P1 & P2 & P3).
    assert (Hth1 : thread self1 = None).
    { destruct o; [exfalso; apply P1; auto | | apply P3; reflexivity].
      rewrite P2; [exact Hth | discriminate]. }
    specialize (IH self1 log1 Hth1).
    destruct (perform_all env cs self1 log1) as [[os self2] log2].
    destruct IH as [I1 I2]. split; [exact I1|].
    intros [E | I]; [|exact (I2 I)].
    subst o. apply P1; auto.
Qed.



Variable LockBase___init__ :
  option T -> option T -> option bool -> option T * T * bool.

(** C8: take a lock as its constructor leaves it and any sequence of calls
    on it.  If a connection was supplied, none of these calls closes a
    connection and the supplied one stays in place.  Whenever the lock still
    has a connection, a [release] then closes it if and only if no
    connection was supplied to the constructor. *)
Theorem connection_closed_iff_created (channel_ : string)
    (connection_ : option Redis) (timeout_ check_interval_ : option T)
    (fail_when_locked_ : option bool)
    (thread_sleep_time_ unavailable_timeout_ : T) (log0 : Log T)
    (cs : list Call) :
  let '(self0, log1) :=
    __init__ LockBase___init__ channel_ connection_ timeout_ check_interval_
      fail_when_locked_ thread_sleep_time_ unavailable_timeout_ log0 in
  let '(_, self, log) := perform_all env cs self0 log1 in
  (forall c, connection_ = Some c ->
             connection self = Some c
             /\ Extends (close_only_if false) log0 log)
  /\ (forall c, connection self = Some c ->
        exists calls,
          snd (release self log) = calls ++ log
          /\ (In (connection_close c) calls <-> connection_ = None)).
Proof.
  unfold __init__.
  destruct (LockBase___init__ timeout_ check_interval_ fail_when_locked_)
    as [[bt bci] bf].
  destruct connection_ as [c0|]; cbv beta iota zeta;
    match goal with
    | |- context [perform_all env cs ?s0 ?l1] =>
        pose proof (perform_all_frame cs s0 l1) as F;
        destruct (perform_all env cs s0 l1) as [[os self] log]
    end;
  destruct F as [(Fcc & Fch & Fco & Flog) _]; cbn in Fcc, Fco, Flog.
  - split.
    + intros c E. injection E as <-. split.
      * destruct Fco as [E | [_ E]]; [exact E | discriminate].
      * apply Extends_trans with (log2 := connection_pubsub c0 (length log0)
                                           :: log0); [|exact Flog].
        apply Extends_call; [exact I | apply Extends_same].
    + intros c Hc. rewrite release_run. cbn [snd].
      exists (rev (release_calls self)). split; [reflexivity|].
      rewrite <- in_rev. unfold release_calls. rewrite Hc, Fcc.
      split; [|discriminate].
      intros Hin. exfalso.
      repeat (apply in_app_or in Hin; destruct Hin as [Hin | Hin]);
        try (destruct (thread self); simpl in Hin; intuition discriminate);
        try (destruct (pubsub self); simpl in Hin; intuition discriminate);
        simpl in Hin; intuition discriminate.
  - split; [discriminate|].
    intros c Hc. rewrite release_run. cbn [snd].
    exists (rev (release_calls self)). split; [reflexivity|].
    rewrite <- in_rev. unfold release_calls. rewrite Hc, Fcc.
    split; [reflexivity|]. intros _.
    apply in_or_app. right. apply in_or_app. right. apply in_or_app. right.
    left. reflexivity.
Qed.


(** Every attempt of a lock that has its connection ends by unsubscribing,
    however it ends: the [finally] clause runs on the [return True] path
    and on the path of the [TypeError] as well. *)
Lemma _try_acquire_always_unsubscribes (self : RedisLock T) (log : Log T)
    (c : Redis) :
  connection self = Some c ->
  let '(_, self', log') := _try_acquire env self log in
  pubsub self' = Some (attempt_pubsub self log)
  /\ subscribed (attempt_pubsub self log) (channel self) log' = false.
Proof.
  intros Hc. rewrite (_try_acquire_run env self log c Hc). split.
  - reflexivity.
  - unfold attempt_calls. rewrite !rev_app_distr. cbn [rev app subscribed].
    rewrite Nat.eqb_refl, String.eqb_refl. reflexivity.
Qed.

End Calls.



(** C1, where the code departs from it: on a quiet channel (no message,
    receiver count 1) the attempt of a lock as the constructor leaves it
    does not return [True]: the worker's constructor is called without its
    [sleep_time] and raises [TypeError]; the attempt has subscribed, read,
    published and, in the [finally] clause, unsubscribed. *)
Theorem _try_acquire_quiet_channel_raises :
  attempt_message Example.quiet Example.borrowing 7 [] = None
  /\ attempt_receivers Example.quiet Example.borrowing 7 [] = 1%Z
  /\ _try_acquire Example.quiet Example.borrowing [] =
     (Raise (TypeError "sleep_time"),
      Example.borrowing,
      [pubsub_unsubscribe 0 "jobs";
       connection_publish 7 "jobs" action_acquire;
       pubsub_get_message 0 1%Z;
       pubsub_subscribe 0 "jobs"]).
Proof. repeat split. Qed.

(** C2, where the code departs from it.  On a quiet channel the attempt of
    a lock as the constructor leaves it starts no worker: it raises the
    [TypeError] of the constructor, [thread] stays [None], and the
    subscription is closed.  On a lock that has a worker already the
    attempt returns [True], and the [finally] clause has unsubscribed all
    the same: the subscription is not left open. *)
Theorem _try_acquire_success_unsubscribes :
  (_try_acquire Example.quiet Example.borrowing [] =
   (Raise (TypeError "sleep_time"),
    Example.borrowing,
    [pubsub_unsubscribe 0 "jobs";
     connection_publish 7 "jobs" action_acquire;
     pubsub_get_message 0 1%Z;
     pubsub_subscribe 0 "jobs"])
   /\ thread Example.borrowing = None
   /\ subscribed 0 "jobs"
        (snd (_try_acquire Example.quiet Example.borrowing [])) = false)
  /\ (_try_acquire Example.quiet Example2.with_worker [] =
      (Return true,
       Example2.with_worker,
       [pubsub_unsubscribe 0 "jobs";
        connection_publish 7 "jobs" action_acquire;
        pubsub_get_message 0 1%Z;
        pubsub_subscribe 0 "jobs"])
      /\ subscribed 0 "jobs"
           (snd (_try_acquire Example.quiet Example2.with_worker [])) = false).
Proof. repeat split. Qed.

(** C10, where the code departs from it.  After [release], the lock that
    created its connection has none and its next [acquire] stops at
    [self.connection.pubsub()]; the lock on a supplied connection asks it
    for a new pubsub object (here [3]) in its next attempt, but on a quiet
    channel that attempt, and with it [acquire], ends in the [TypeError] of
    the worker's constructor: the lock is not acquired again. *)
Theorem release_then_acquire_raises :
  (let '(_, self1, log1) := release Example.owning [] in
   connection self1 = None
   /\ acquire Example.quiet 1 None None None self1 log1
      = (Raise (AttributeError "pubsub"), self1, time_time :: log1))
  /\ (let '(_, self1, log1) := release Example.borrowing [] in
      connection self1 = Some 7
      /\ pubsub self1 = None
      /\ acquire Example.quiet 1 None None None self1 log1
         = (Raise (TypeError "sleep_time"),
            set_pubsub (Some 3) self1,
            [pubsub_unsubscribe 3 "jobs";
             connection_publish 7 "jobs" action_acquire;
             pubsub_get_message 3 1%Z;
             pubsub_subscribe 3 "jobs";
             connection_pubsub 7 3;
             time_time]
            ++ log1)).
Proof. cbn. repeat split. Qed.


(** [acquire(fail_when_locked=True)] on a contended channel: one attempt,
    then the error. *)
Lemma acquire_fail_when_locked_witness :
  _try_acquire Example.contended Example.borrowing [time_time]
  = (Return false, Example.borrowing,
     [pubsub_unsubscribe 0 "jobs";
      connection_publish 7 "jobs" action_acquire;
      pubsub_get_message 0 1%Z;
      pubsub_subscribe 0 "jobs";
      time_time])
  /\ acquire Example.contended 1 None None (Some true) Example.borrowing []
     = (Raise (LockException "Failed to acquire lock"), Example.borrowing,
        [pubsub_unsubscribe 0 "jobs";
         connection_publish 7 "jobs" action_acquire;
         pubsub_get_message 0 1%Z;
         pubsub_subscribe 0 "jobs";
         time_time]).
Proof.
  split; [reflexivity|].
  exact (proj1 (acquire_fail_when_locked Example.contended 0 None None
                  (Some true) Example.borrowing Example.borrowing []
                  [pubsub_unsubscribe 0 "jobs";
                   connection_publish 7 "jobs" action_acquire;
                   pubsub_get_message 0 1%Z;
                   pubsub_subscribe 0 "jobs";
                   time_time]
                  eq_refl eq_refl)).
Defined.

(** A turn on a contended channel with a timeout of 2 seconds, 4 seconds
    after the start: the timeout error. *)
Lemma acquire_loop_turn_witness :
  _try_acquire Example.contended Example.borrowing []
  = (Return false, Example.borrowing,
     [pubsub_unsubscribe 0 "jobs";
      connection_publish 7 "jobs" action_acquire;
      pubsub_get_message 0 1%Z;
      pubsub_subscribe 0 "jobs"])
  /\ acquire_loop Example.contended 1 (Some 2%Z) 1%Z false 0%Z
       Example.borrowing []
     = (Raise (LockException "Timeout while acquiring lock"),
        Example.borrowing,
        [time_time;
         pubsub_unsubscribe 0 "jobs";
         connection_publish 7 "jobs" action_acquire;
         pubsub_get_message 0 1%Z;
         pubsub_subscribe 0 "jobs"]).
Proof.
  split; [reflexivity|].
  exact (proj1 (acquire_loop_turn Example.contended 0 (Some 2%Z) 1%Z 0%Z
                  false Example.borrowing Example.borrowing []
                  [pubsub_unsubscribe 0 "jobs";
                   connection_publish 7 "jobs" action_acquire;
                   pubsub_get_message 0 1%Z;
                   pubsub_subscribe 0 "jobs"]
                  eq_refl)).
Defined.

(** C7 as worded fails: with a connection supplied by the caller, the second
    [release] in a row publishes the release notification again. *)
Lemma second_release_publishes_again :
  let '(_, self1, log1) := release Example.borrowing [] in
  release self1 log1
  = (Return tt, self1, connection_publish 7 "jobs" action_release :: log1)
  /\ release self1 log1 <> (Return tt, self1, log1).
Proof.
  cbn. split; [reflexivity | discriminate].
Qed.

(** * Further properties *)

(** Splits an attempt of any lock into its paths: with or without pubsub
    object and connection, by the message read and the receiver count. *)
Ltac attempt_paths ps co :=
  run_py;
  destruct ps, co; cbn;
  repeat match goal with
    | |- context [accepted ?m] => destruct (accepted m); cbn
    | |- context [(?n =? 1)%Z] => destruct (n =? 1)%Z; cbn
    end.

Section Invariants.

Context {T : Type} `{Seconds T}.
Variable env : Environment T.

(** A property of the attributes and the log that an attempt, a release
    and the two calls to the clock keep. *)
Variable Inv : RedisLock T -> Log T -> Prop.

Hypothesis Inv__try_acquire : forall self log,
  Inv self log ->
  Inv (snd (fst (_try_acquire env self log))) (snd (_try_acquire env self log)).

Hypothesis Inv_release : forall self log,
  Inv self log ->
  Inv (snd (fst (release self log))) (snd (release self log)).

Hypothesis Inv_time_time : forall self log,
  Inv self log -> Inv self (time_time :: log).

Hypothesis Inv_time_sleep : forall self log secs,
  Inv self log -> Inv self (time_sleep secs :: log).

(** The loop of [acquire] keeps it, however it ends. *)
Lemma acquire_loop_invariant (fuel : nat) (timeout' : option T)
    (check_interval' : T) (fail_when_locked' : bool) (start_time : T)
    (self : RedisLock T) (log : Log T) :
  Inv self log ->
  Inv (snd (fst (acquire_loop env fuel timeout' check_interval'
                   fail_when_locked' start_time self log)))
      (snd (acquire_loop env fuel timeout' check_interval'
              fail_when_locked' start_time self log)).
Proof.
  revert self log. induction fuel as [|fuel IH]; intros self log HI.
  - exact HI.
  - rewrite acquire_loop_S.
    pose proof (Inv__try_acquire self log HI) as HA.
    destruct (_try_acquire env self log) as [[r self1] log1].
    cbn [fst snd] in HA.
    destruct r as [[|]|e]; [exact HA | | exact HA].
    destruct fail_when_locked'; [exact HA|].
    destruct timeout' as [t|]; [destruct (exceeds _ t)|].
    + apply Inv_time_time. exact HA.
    + apply IH. apply Inv_time_sleep, Inv_time_time. exact HA.
    + apply IH. apply Inv_time_sleep. exact HA.
Qed.

(** Every sequence of calls keeps it. *)
Lemma perform_all_invariant (cs : list Call) (self : RedisLock T)
    (log : Log T) :
  Inv self log ->
  Inv (snd (fst (perform_all env cs self log)))
      (snd (perform_all env cs self log)).
Proof.
  revert self log. induction cs as [|c cs IH]; intros self log HI.
  - exact HI.
  - cbn [perform_all].
    assert (HP : Inv (snd (fst (perform env c self log)))
                     (snd (perform env c self log))).
    { destruct c as [fuel t ci f | |]; cbn [perform].
      - rewrite acquire_unfold.
        match goal with
        | |- context [acquire_loop env fuel ?t' ?ci' ?f' ?st self ?l] =>
            pose proof (acquire_loop_invariant fuel t' ci' f' st self l
                          (Inv_time_time self log HI)) as HL;
            destruct (acquire_loop env fuel t' ci' f' st self l)
              as [[r self1] log1]
        end.
        destruct r as [[v|]|e]; exact HL.
      - pose proof (Inv__try_acquire self log HI) as HA.
        destruct (_try_acquire env self log) as [[r self1] log1].
        destruct r as [[|]|e]; exact HA.
      - pose proof (Inv_release self log HI) as HR.
        destruct (release self log) as [[r self1] log1]. exact HR. }
    destruct (perform env c self log) as [[o self1] log1].
    specialize (IH self1 log1 HP).
    destruct (perform_all env cs self1 log1) as [[os self2] log2].
    exact IH.
Qed.

End Invariants.

Section Workers.

Context {T : Type} `{Seconds T}.
Variable env : Environment T.

(** As many workers are running as the lock has in [thread]: one or none. *)
Definition workers_accounted (self : RedisLock T) (log : Log T) : Prop :=
  worker_balance log
  = match thread self with Some _ => 1%Z | None => 0%Z end.

Lemma workers_accounted__try_acquire (self : RedisLock T) (log : Log T) :
  workers_accounted self log ->
  workers_accounted (snd (fst (_try_acquire env self log)))
    (snd (_try_acquire env self log)).
Proof.
  unfold workers_accounted.
  destruct self as [cc th ch co ps tst ut to ci fwl]. cbn [thread].
  intros HI. attempt_paths ps co; try destruct th; cbn; rewrite ?HI; reflexivity.
Qed.

Lemma workers_accounted_release (self : RedisLock T) (log : Log T) :
  workers_accounted self log ->
  workers_accounted (snd (fst (release self log))) (snd (release self log)).
Proof.
  unfold workers_accounted.
  destruct self as [cc th ch co ps tst ut to ci fwl]. cbn [thread].
  intros HI. run_py. destruct th, ps, co, cc; cbn; rewrite ?HI; reflexivity.
Qed.

(** No attempt and no release starts a worker. *)
Lemma no_thread_start__try_acquire (n : nat) (self : RedisLock T)
    (log : Log T) :
  count_calls is_thread_start log = n ->
  count_calls is_thread_start (snd (_try_acquire env self log)) = n.
Proof.
  destruct self as [cc th ch co ps tst ut to ci fwl].
  intros HI. attempt_paths ps co; try destruct th; exact HI.
Qed.

Lemma no_thread_start_release (n : nat) (self : RedisLock T) (log : Log T) :
  count_calls is_thread_start log = n ->
  count_calls is_thread_start (snd (release self log)) = n.
Proof.
  destruct self as [cc th ch co ps tst ut to ci fwl].
  intros HI. run_py. destruct th, ps, co, cc; exact HI.
Qed.

(** X5: no sequence of [acquire], [_try_acquire] and [release] calls,
    however each of them ends, starts a worker: the log gains no
    [thread_start] call.  And if the workers started and not yet stopped
    are the one in [self.thread] (one, or none when it is [None]), this is
    still so afterwards: [release] stops the worker the lock has and no
    other. *)
Theorem workers_never_leak (cs : list Call) (self : RedisLock T)
    (log : Log T) :
  worker_balance log
  = match thread self with Some _ => 1%Z | None => 0%Z end ->
  let '(_, self', log') := perform_all env cs self log in
  worker_balance log'
  = match thread self' with Some _ => 1%Z | None => 0%Z end
  /\ count_calls is_thread_start log' = count_calls is_thread_start log.
Proof.
  intros HI.
  pose proof (perform_all_invariant env workers_accounted
                workers_accounted__try_acquire workers_accounted_release
                (fun _ _ A => A) (fun _ _ _ A => A) cs self log HI) as P.
  pose proof (perform_all_invariant env
                (fun (_ : RedisLock T) l =>
                   count_calls is_thread_start l
                   = count_calls is_thread_start log)
                (no_thread_start__try_acquire _)
                (no_thread_start_release _)
                (fun _ _ A => A) (fun _ _ _ A => A) cs self log eq_refl) as Q.
  destruct (perform_all env cs self log) as [[os self'] log'].
  split; [exact P | exact Q].
Qed.

End Workers.

Section BetweenCalls.

Context {T : Type} `{Seconds T}.
Variable env : Environment T.

(** The pubsub object of the lock, if it has one, is not subscribed to the
    channel of the lock. *)
Definition unsubscribed (self : RedisLock T) (log : Log T) : Prop :=
  forall p, pubsub self = Some p -> subscribed p (channel self) log = false.

Lemma unsubscribed__try_acquire (self : RedisLock T) (log : Log T) :
  unsubscribed self log ->
  unsubscribed (snd (fst (_try_acquire env self log)))
    (snd (_try_acquire env self log)).
Proof.
  unfold unsubscribed.
  destruct self as [cc th ch co ps tst ut to ci fwl]. cbn [pubsub channel].
  intros HI. attempt_paths ps co; try destruct th; cbn [fst snd];
    intros q E; try discriminate E; injection E as <-;
    cbn [subscribed]; rewrite Nat.eqb_refl, String.eqb_refl; reflexivity.
Qed.

Lemma unsubscribed_release (self : RedisLock T) (log : Log T) :
  unsubscribed self log ->
  unsubscribed (snd (fst (release self log))) (snd (release self log)).
Proof.
  intros _. rewrite release_run. intros p E.
  destruct self as [cc th ch co ps tst ut to ci fwl]. discriminate E.
Qed.

(** X6: a lock whose pubsub object is not subscribed to its channel is in
    the same position after any sequence of [acquire], [_try_acquire] and
    [release] calls, whether they returned [True], returned [False] or
    raised: every path of an attempt that subscribes runs the
    [unsubscribe] of the [finally] clause, the path on which [publish]
    raises for want of a connection included. *)
Theorem never_subscribed_between_calls (cs : list Call) (self : RedisLock T)
    (log : Log T) :
  (forall p, pubsub self = Some p ->
             subscribed p (channel self) log = false) ->
  let '(_, self', log') := perform_all env cs self log in
  forall p, pubsub self' = Some p ->
            subscribed p (channel self') log' = false.
Proof.
  intros HI.
  pose proof (perform_all_invariant env unsubscribed
                unsubscribed__try_acquire unsubscribed_release
                (fun _ _ A => A) (fun _ _ _ A => A) cs self log HI) as P.
  destruct (perform_all env cs self log) as [[os self'] log']. exact P.
Qed.

Lemma same_settings__try_acquire (self0 self : RedisLock T) (log : Log T) :
  same_settings self0 self ->
  same_settings self0 (snd (fst (_try_acquire env self log))).
Proof.
  unfold same_settings.
  destruct self as [cc th ch co ps tst ut to ci fwl].
  cbn [channel close_connection timeout check_interval fail_when_locked
       thread_sleep_time unavailable_timeout].
  intros HI. attempt_paths ps co; try destruct th; exact HI.
Qed.

Lemma same_settings_release (self0 self : RedisLock T) (log : Log T) :
  same_settings self0 self ->
  same_settings self0 (snd (fst (release self log))).
Proof.
  unfold same_settings. rewrite release_run.
  destruct self as [cc th ch co ps tst ut to ci fwl]. intros HI. exact HI.
Qed.

(** X7: no sequence of [acquire], [_try_acquire] and [release] calls
    changes the channel, the ownership flag, or the stored [timeout],
    [check_interval], [fail_when_locked], [thread_sleep_time] and
    [unavailable_timeout]; in particular the arguments given to one
    [acquire] do not replace the stored values for the next. *)
Theorem settings_never_change (cs : list Call) (self : RedisLock T)
    (log : Log T) :
  let '(_, self', _) := perform_all env cs self log in
  channel self' = channel self
  /\ close_connection self' = close_connection self
  /\ timeout self' = timeout self
  /\ check_interval self' = check_interval self
  /\ fail_when_locked self' = fail_when_locked self
  /\ thread_sleep_time self' = thread_sleep_time self
  /\ unavailable_timeout self' = unavailable_timeout self.
Proof.
  pose proof (perform_all_invariant env
                (fun s (_ : Log T) => same_settings self s)
                (fun s l => same_settings__try_acquire self s l)
                (fun s l => same_settings_release self s l)
                (fun _ _ A => A) (fun _ _ _ A => A) cs self log) as P.
  destruct (perform_all env cs self log) as [[os self'] log'].
  apply P. repeat split.
Qed.

End BetweenCalls.

Section AcquireRuns.

Context {T : Type} `{Seconds T}.
Variable env : Environment T.

(** When the two answers pass, the publish the attempt leaves in the log
    was answered 1. *)
Lemma attempt_acquired_answer (self : RedisLock T) (c : Redis) (log : Log T) :
  attempt_acquired env self c log = true ->
  last_acquire_answer env (rev (attempt_calls env self c log) ++ log)
  = Some 1%Z.
Proof.
  unfold attempt_acquired. intros A. apply andb_true_iff in A.
  destruct A as [A1 A2]. apply Z.eqb_eq in A2.
  unfold attempt_calls. rewrite A1.
  unfold attempt_receivers, log_subscribed, attempt_pubsub in *.
  destruct (pubsub self); cbn [rev app last_acquire_answer];
    rewrite A2; reflexivity.
Qed.

(** The errors of the loop of [acquire] on a lock that has its
    connection. *)
Lemma acquire_loop_raises (fuel : nat) (timeout' : option T)
    (check_interval' : T) (fail_when_locked' : bool) (start_time : T)
    (self self' : RedisLock T) (log log' : Log T) (c : Redis)
    (e : Exception) :
  connection self = Some c ->
  acquire_loop env fuel timeout' check_interval' fail_when_locked'
    start_time self log = (Raise e, self', log') ->
  e = LockException "Failed to acquire lock" /\ fail_when_locked' = true
  \/ e = LockException "Timeout while acquiring lock"
     /\ fail_when_locked' = false /\ timeout' <> None
  \/ e = TypeError "sleep_time"
     /\ thread self = None /\ last_acquire_answer env log' = Some 1%Z.
Proof.
  revert self log. induction fuel as [|fuel IH]; intros self log Hc E.
  - discriminate E.
  - rewrite acquire_loop_S, (_try_acquire_run env self log c Hc) in E.
    unfold attempt_result in E.
    destruct (attempt_acquired env self c log) eqn:A.
    + destruct (thread self) eqn:Hth; [discriminate E|].
      injection E as <- _ <-. right. right.
      repeat split. apply attempt_acquired_answer. exact A.
    + destruct fail_when_locked'.
      * injection E as <- _ _. left. split; reflexivity.
      * destruct timeout' as [t|]; [destruct (exceeds _ t)|].
        -- injection E as <- _ _. right. left. repeat split. discriminate.
        -- exact (IH (attempt_self self log) _ Hc E).
        -- exact (IH (attempt_self self log) _ Hc E).
Qed.

(** X2: on a lock that has its connection, [acquire] raises nothing but
    [LockException("Failed to acquire lock")], and that only with
    [fail_when_locked] in force;
    [LockException("Timeout while acquiring lock")], and that only without
    [fail_when_locked] and with a timeout that is not [None]; and the
    [TypeError] of the worker's constructor, and that only on a lock
    without worker, right after a publish that was answered 1. *)
Theorem acquire_raises_only (fuel : nat) (timeout_ check_interval_ : option T)
    (fail_when_locked_ : option bool) (self self' : RedisLock T)
    (log log' : Log T) (c : Redis) (e : Exception) :
  connection self = Some c ->
  acquire env fuel timeout_ check_interval_ fail_when_locked_ self log
  = (Raise e, self', log') ->
  e = LockException "Failed to acquire lock"
  /\ match fail_when_locked_ with
     | None => fail_when_locked self
     | Some b => b
     end = true
  \/ e = LockException "Timeout while acquiring lock"
     /\ match fail_when_locked_ with
        | None => fail_when_locked self
        | Some b => b
        end = false
     /\ match timeout_ with None => timeout self | Some t => Some t end
        <> None
  \/ e = TypeError "sleep_time"
     /\ thread self = None /\ last_acquire_answer env log' = Some 1%Z.
Proof.
  intros Hc E. rewrite acquire_unfold in E.
  exact (acquire_loop_raises _ _ _ _ _ _ _ _ _ c e Hc E).
Qed.

Lemma count_calls_app (kind : Event T -> bool) (calls log : Log T) :
  count_calls kind (calls ++ log)
  = count_calls kind calls + count_calls kind log.
Proof. unfold count_calls. rewrite filter_app, length_app. reflexivity. Qed.

Lemma count_calls_cons (kind : Event T -> bool) (e : Event T) (log : Log T) :
  count_calls kind (e :: log)
  = (if kind e then 1 else 0) + count_calls kind log.
Proof. unfold count_calls. cbn [filter]. destruct (kind e); reflexivity. Qed.

Lemma count_calls_rev (kind : Event T -> bool) (calls : Log T) :
  count_calls kind (rev calls) = count_calls kind calls.
Proof.
  induction calls as [|e calls IH]; [reflexivity|].
  cbn [rev]. rewrite count_calls_app, IH, !count_calls_cons.
  change (count_calls kind []) with 0. lia.
Qed.

Lemma count_calls_attempt (self : RedisLock T) (c : Redis) (log : Log T) :
  count_calls is_sleep (attempt_calls env self c log) = 0
  /\ count_calls is_subscribe (attempt_calls env self c log) = 1.
Proof.
  unfold attempt_calls.
  destruct (pubsub self), (accepted (attempt_message env self c log));
    split; reflexivity.
Qed.

(** The loop without timeout and without [fail_when_locked], while no
    publish is answered 1. *)
Lemma acquire_loop_keeps_trying (fuel : nat) (check_interval' : T)
    (start_time : T) (self : RedisLock T) (log : Log T) (c : Redis) :
  connection self = Some c ->
  (forall log0, publish_result env log0 <> 1%Z) ->
  let out :=
    acquire_loop env fuel None check_interval' false start_time self log in
  fst (fst out) = Return None
  /\ thread (snd (fst out)) = thread self
  /\ count_calls is_subscribe (snd out)
     = fuel + count_calls is_subscribe log
  /\ count_calls is_sleep (snd out) = fuel + count_calls is_sleep log.
Proof.
  intros Hc Hbusy. cbv zeta. revert self log Hc.
  induction fuel as [|fuel IH]; intros self log Hc.
  - cbn. auto.
  - rewrite acquire_loop_S, (_try_acquire_run env self log c Hc).
    assert (A : attempt_acquired env self c log = false).
    { unfold attempt_acquired.
      destruct (Z.eqb_spec (attempt_receivers env self c log) 1) as [E|_].
      - exfalso. exact (Hbusy _ E).
      - apply andb_false_r. }
    unfold attempt_result. rewrite A.
    assert (Hc' : connection (attempt_self self log) = Some c) by exact Hc.
    match goal with
    | |- context [acquire_loop env fuel None check_interval' false
                    start_time ?s ?l] =>
        destruct (IH s l Hc') as (I1 & I2 & I3 & I4)
    end.
    destruct (count_calls_attempt self c log) as [C0 C1].
    repeat split.
    + exact I1.
    + rewrite I2. reflexivity.
    + rewrite I3, count_calls_cons, count_calls_app, count_calls_rev, C1.
      cbn [is_subscribe]. lia.
    + rewrite I4, count_calls_cons, count_calls_app, count_calls_rev, C0.
      cbn [is_sleep]. lia.
Qed.

(** X3: with no timeout (the argument and the stored value both [None])
    and without [fail_when_locked], on a lock that has its connection and a
    channel where no publish is answered 1, [acquire] neither returns nor
    raises: after any number [fuel] of turns the loop is still running,
    with [fuel] attempts and [fuel] sleeps behind it and no worker
    started. *)
Theorem acquire_blocks_without_timeout (fuel : nat)
    (timeout_ check_interval_ : option T) (fail_when_locked_ : option bool)
    (self : RedisLock T) (log : Log T) (c : Redis) :
  connection self = Some c ->
  match timeout_ with None => timeout self | Some t => Some t end = None ->
  match fail_when_locked_ with
  | None => fail_when_locked self
  | Some b => b
  end = false ->
  (forall log0, publish_result env log0 <> 1%Z) ->
  let out :=
    acquire env fuel timeout_ check_interval_ fail_when_locked_ self log in
  fst (fst out) = Return None
  /\ thread (snd (fst out)) = thread self
  /\ count_calls is_subscribe (snd out)
     = fuel + count_calls is_subscribe log
  /\ count_calls is_sleep (snd out) = fuel + count_calls is_sleep log.
Proof.
  intros Hc Ht Hf Hbusy. cbv zeta. rewrite acquire_unfold, Ht, Hf.
  exact (acquire_loop_keeps_trying fuel _ _ self (time_time :: log) c Hc
           Hbusy).
Qed.

(** X4: on a free channel [acquire] fails before it ever looks at the
    timeout.  On a lock that has its connection and no worker, if the first
    attempt reads an accepted message and its publish is answered 1,
    [acquire] ends in the [TypeError] of the worker's constructor after
    that one attempt, whatever the timeout, the interval and
    [fail_when_locked]: the lock is not returned, no worker is started, the
    clock is not read again and nothing sleeps. *)
Theorem acquire_first_attempt (fuel : nat)
    (timeout_ check_interval_ : option T) (fail_when_locked_ : option bool)
    (self : RedisLock T) (log : Log T) (c : Redis) :
  connection self = Some c ->
  thread self = None ->
  attempt_acquired env self c (time_time :: log) = true ->
  acquire env (S fuel) timeout_ check_interval_ fail_when_locked_ self log
  = (Raise (TypeError "sleep_time"),
     set_pubsub (Some (attempt_pubsub self (time_time :: log))) self,
     rev (attempt_calls env self c (time_time :: log)) ++ time_time :: log).
Proof.
  intros Hc Hth A.
  rewrite acquire_unfold, acquire_loop_S, (_try_acquire_run env _ _ c Hc).
  unfold attempt_result. rewrite A, Hth. reflexivity.
Qed.

(** X10: a lock without worker, as the constructor leaves it, is never
    acquired.  Whatever redis and the clock answer, no sequence of
    [acquire], [_try_acquire] and [release] calls contains a call that
    reports the lock acquired, the lock stays without worker, and a [with]
    statement on it does not reach its body. *)
Theorem lock_is_never_acquired (cs : list Call) (self : RedisLock T)
    (log : Log T) :
  thread self = None ->
  (let '(os, self', _) := perform_all env cs self log in
   ~ In acquired os /\ thread self' = None)
  /\ (forall (A : Type) (fuel : nat) (body : RedisLock T -> Py T A) (a : A),
        fst (fst (with_statement env fuel body self log))
        <> Return (Some a)).
Proof.
  intros Hth. split.
  - pose proof (never_acquired env cs self log Hth) as N.
    destruct (perform_all env cs self log) as [[os self'] log'].
    destruct N as [N1 N2]. split; assumption.
  - intros A fuel body a.
    unfold with_statement, __enter__. rewrite acquire_unfold.
    match goal with
    | |- context [acquire_loop env fuel ?t' ?ci' ?f' ?st self ?l] =>
        pose proof (acquire_loop_thread env fuel t' ci' f' st self l) as L;
        destruct (acquire_loop env fuel t' ci' f' st self l)
          as [[r self'] log']
    end.
    destruct L as [_ L].
    destruct r as [[v|]|e]; try discriminate.
    exfalso. apply (L v); [reflexivity | exact Hth].
Qed.

End AcquireRuns.

Section TwoLocks.

Context {T : Type} `{Seconds T}.
Variable env : Environment T.
Variable channel_ : string.

Lemma existsb_filter_same (p : PubSub) (l : list PubSub) :
  existsb (Nat.eqb p) (filter (fun r => negb (Nat.eqb r p)) l) = false.
Proof.
  induction l as [|r l IHl]; [reflexivity|].
  cbn [filter]. destruct (Nat.eqb_spec r p) as [->|Hr]; cbn [negb].
  - exact IHl.
  - cbn [existsb]. rewrite IHl.
    destruct (Nat.eqb_spec p r) as [E|_]; [congruence | reflexivity].
Qed.

Lemma existsb_filter_other (p q : PubSub) (l : list PubSub) :
  q <> p ->
  existsb (Nat.eqb p) (filter (fun r => negb (Nat.eqb r q)) l)
  = existsb (Nat.eqb p) l.
Proof.
  intros Hq. induction l as [|r l IHl]; [reflexivity|].
  cbn [filter existsb]. destruct (Nat.eqb_spec r q) as [->|Hr]; cbn [negb].
  - rewrite IHl. destruct (Nat.eqb_spec p q) as [E|_];
      [congruence | reflexivity].
  - cbn [existsb]. rewrite IHl. reflexivity.
Qed.

(** The pubsub object is among the subscribers exactly when its own calls
    say so. *)
Lemma subscribers_subscribed (p : PubSub) (log : Log T) :
  existsb (Nat.eqb p) (subscribers channel_ log) = subscribed p channel_ log.
Proof.
  induction log as [|e log IH]; [reflexivity|].
  destruct e as [c|c q|c ch a|c|q ch|q t|q ch|t|t| |d];
    cbn [subscribers subscribed]; try exact IH.
  - destruct (String.eqb_spec ch channel_) as [->|Hne].
    + rewrite andb_true_r. cbn [andb].
      destruct (Nat.eqb_spec q p) as [->|Hq].
      * destruct (existsb (Nat.eqb p) (subscribers channel_ log)) eqn:E;
          cbn [negb]; [exact E|].
        cbn [existsb]. rewrite Nat.eqb_refl. reflexivity.
      * destruct (existsb (Nat.eqb q) (subscribers channel_ log));
          cbn [negb]; [exact IH|].
        cbn [existsb]. rewrite IH.
        destruct (Nat.eqb_spec p q) as [E|_]; [congruence | reflexivity].
    + rewrite andb_false_r. cbn [andb]. exact IH.
  - destruct (String.eqb_spec ch channel_) as [->|Hne].
    + rewrite andb_true_r. destruct (Nat.eqb_spec q p) as [->|Hq].
      * apply existsb_filter_same.
      * rewrite existsb_filter_other by exact Hq. exact IH.
    + rewrite andb_false_r. exact IH.
Qed.

(** The redis server answers a publish with the number of pubsub objects
    subscribed to the channel, and every message read is accepted. *)
Hypothesis counting_server :
  forall log, publish_result env log
              = Z.of_nat (length (subscribers channel_ log)).
Hypothesis accepted_messages :
  forall log, accepted (get_message_result env log) = true.

(** One attempt against the counting server, for a lock with a pubsub
    object that is not subscribed yet. *)
Lemma counted_attempt (self : RedisLock T) (log : Log T) (c : Redis)
    (p : PubSub) :
  connection self = Some c ->
  pubsub self = Some p ->
  channel self = channel_ ->
  existsb (Nat.eqb p) (subscribers channel_ log) = false ->
  let '(r, self', log') := _try_acquire env self log in
  r = (if Nat.eqb (length (subscribers channel_ log)) 0
       then match thread self with
            | Some _ => Return true
            | None => Raise (TypeError "sleep_time")
            end
       else Return false)
  /\ subscribers channel_ log' = subscribers channel_ log.
Proof.
  intros Hc Hp Hch Hnew.
  assert (Hfilter :
            filter (fun q => negb (Nat.eqb q p)) (subscribers channel_ log)
            = subscribers channel_ log).
  { induction (subscribers channel_ log) as [|q l IHl]; [reflexivity|].
    cbn [existsb] in Hnew. apply orb_false_elim in Hnew.
    destruct Hnew as [Hq Hl]. cbn [filter].
    rewrite Nat.eqb_sym, Hq. cbn [negb]. rewrite (IHl Hl). reflexivity. }
  rewrite (_try_acquire_run env self log c Hc).
  assert (A : attempt_acquired env self c log
              = Nat.eqb (length (subscribers channel_ log)) 0).
  { unfold attempt_acquired, attempt_message, attempt_receivers,
      log_subscribed, attempt_pubsub.
    rewrite accepted_messages, counting_server, Hp, Hch.
    cbn [subscribers andb]. rewrite String.eqb_refl, Hnew. cbn [andb negb].
    cbn [length].
    destruct (Z.eqb_spec (Z.of_nat (S (length (subscribers channel_ log)))) 1),
      (Nat.eqb_spec (length (subscribers channel_ log)) 0);
      try reflexivity; lia. }
  split.
  - unfold attempt_result. rewrite A. reflexivity.
  - unfold attempt_calls, attempt_pubsub, attempt_message.
    rewrite Hp, Hch, accepted_messages.
    cbn [app rev subscribers]. rewrite String.eqb_refl, Hnew.
    cbn [andb negb filter]. rewrite Nat.eqb_refl. cbn [negb].
    exact Hfilter.
Qed.

(** X8: an attempt against a redis server that answers a publish with the
    number of pubsub objects subscribed to the channel, every message read
    being accepted, for a lock with its connection and a pubsub object of
    its own that is not subscribed.  The attempt returns [False] exactly
    when some other pubsub object is subscribed to the channel.  With none
    subscribed it ends in the [TypeError] of the worker's constructor on a
    lock without worker, and returns [True] on a lock that has one.  In
    every case the subscribers are afterwards the ones found before. *)
Theorem counting_server_attempt (self : RedisLock T) (log : Log T)
    (c : Redis) (p : PubSub) :
  connection self = Some c ->
  pubsub self = Some p ->
  channel self = channel_ ->
  existsb (Nat.eqb p) (subscribers channel_ log) = false ->
  let '(r, self', log') := _try_acquire env self log in
  (r = Return false <-> subscribers channel_ log <> [])
  /\ (subscribers channel_ log = [] -> thread self = None ->
      r = Raise (TypeError "sleep_time"))
  /\ (subscribers channel_ log = [] -> thread self <> None ->
      r = Return true)
  /\ subscribers channel_ log' = subscribers channel_ log.
Proof.
  intros Hc Hp Hch Hnew.
  pose proof (counted_attempt self log c p Hc Hp Hch Hnew) as A.
  destruct (_try_acquire env self log) as [[r self'] log'].
  destruct A as [-> A2].
  destruct (subscribers channel_ log) as [|q l]; cbn [length Nat.eqb].
  - destruct (thread self); repeat split; try congruence;
      try (intros E; discriminate E); try (intros N; exfalso; apply N;
      reflexivity); intros _ N; exfalso; apply N; reflexivity.
  - repeat split; try congruence; try discriminate;
      intros E; discriminate E.
Qed.

End TwoLocks.

Section KeywordArguments.

Variable V : Type.

Lemma get_setdefault (key k : string) (v : V) (d : Dict V) :
  get (setdefault k v d) key
  = match get d key with
    | Some x => Some x
    | None => if String.eqb k key then Some v else None
    end.
Proof.
  induction d as [|[k0 v0] d IH]; cbn [setdefault get].
  - reflexivity.
  - destruct (String.eqb_spec k0 k) as [->|Hk]; cbn [get].
    + destruct (String.eqb k key); [reflexivity|].
      destruct (get d key); reflexivity.
    + destruct (String.eqb k0 key); [reflexivity | exact IH].
Qed.

Lemma get_setdefaults (defaults d : Dict V) (key : string) :
  get (setdefaults defaults d) key
  = match get d key with
    | Some x => Some x
    | None => get defaults key
    end.
Proof.
  unfold setdefaults. revert d.
  induction defaults as [|[k v] defaults IH]; intros d; cbn [fold_left get].
  - destruct (get d key); reflexivity.
  - rewrite IH. cbn [fst snd]. rewrite get_setdefault.
    destruct (get d key); [reflexivity|].
    destruct (String.eqb k key); reflexivity.
Qed.

Lemma keys_setdefault (key k : string) (v : V) (d : Dict V) :
  In key (map fst (setdefault k v d)) <-> key = k \/ In key (map fst d).
Proof.
  induction d as [|[k0 v0] d IH]; cbn [setdefault map fst In].
  - intuition.
  - destruct (String.eqb_spec k0 k) as [->|Hk]; cbn [map fst In].
    + intuition.
    + rewrite IH. intuition.
Qed.

Lemma NoDup_setdefault (k : string) (v : V) (d : Dict V) :
  NoDup (map fst d) -> NoDup (map fst (setdefault k v d)).
Proof.
  induction d as [|[k0 v0] d IH]; cbn [setdefault map fst]; intros N.
  - constructor; [intros [] | constructor].
  - destruct (String.eqb_spec k0 k) as [->|Hk]; [exact N|].
    cbn [map fst]. inversion N as [|? ? Hin N']. subst. constructor.
    + rewrite keys_setdefault. intros [E | I]; [congruence | contradiction].
    + apply IH. exact N'.
Qed.

Lemma NoDup_setdefaults (defaults d : Dict V) :
  NoDup (map fst d) -> NoDup (map fst (setdefaults defaults d)).
Proof.
  unfold setdefaults. revert d.
  induction defaults as [|[k v] defaults IH]; intros d N; cbn [fold_left].
  - exact N.
  - apply IH, NoDup_setdefault. exact N.
Qed.

End KeywordArguments.

(** X1: the [redis_kwargs] the constructor keeps (lines 68-70): a key the
    caller gave keeps the caller's value, whatever it is (so
    [health_check_interval=0] stays 0); a key the caller did not give has
    the value of [DEFAULT_REDIS_KWARGS] if that has one
    ([health_check_interval] is 10) and is absent otherwise; with no
    dictionary, or an empty one, the result is the defaults.  No key
    appears twice. *)
Theorem redis_kwargs_defaults (redis_kwargs : option (Dict Value))
    (key : string) :
  get (redis_kwargs___init__ redis_kwargs) key
  = match
      match redis_kwargs with Some d => get d key | None => None end
    with
    | Some v => Some v
    | None =>
        if String.eqb "health_check_interval" key
        then Some (value_int 10)
        else None
    end
  /\ (match redis_kwargs with
      | Some d => NoDup (map fst d)
      | None => True
      end ->
      NoDup (map fst (redis_kwargs___init__ redis_kwargs))).
Proof.
  unfold redis_kwargs___init__. split.
  - rewrite get_setdefaults.
    destruct redis_kwargs as [[|kv d]|]; reflexivity.
  - intros N. apply NoDup_setdefaults.
    destruct redis_kwargs as [[|kv d]|]; [constructor | exact N | constructor].
Qed.

(** X9: which [except] clause catches which class of [exceptions.py]:
    [except d] catches an instance of [c] exactly when [d] is [c], or
    [BaseLockException] (or the built-in [Exception]), or [LockException]
    with [c] one of [AlreadyLocked] and [FileToLarge]; in particular
    neither of these two catches the other, nor [LockException] itself.
    The relation is transitive, and [LOCK_FAILED] is 1 on all four
    classes. *)
Theorem except_catches (c d : ExceptionsPy.Class) :
  c <> ExceptionsPy.Exception_builtin ->
  (ExceptionsPy.issubclass c d = true <->
   d = c
   \/ d = ExceptionsPy.Exception_builtin
   \/ d = ExceptionsPy.BaseLockException
   \/ d = ExceptionsPy.LockException
      /\ (c = ExceptionsPy.AlreadyLocked \/ c = ExceptionsPy.FileToLarge))
  /\ (forall e,
        ExceptionsPy.issubclass c d = true ->
        ExceptionsPy.issubclass d e = true ->
        ExceptionsPy.issubclass c e = true)
  /\ ExceptionsPy.getattr c "LOCK_FAILED" = Some 1%Z.
Proof.
  intros Hc. split; [|split].
  - destruct c, d; cbn; split; intros E;
      try discriminate E; try reflexivity; try congruence;
      intuition congruence.
  - intros e. destruct c, d, e; cbn; intros E1 E2;
      try discriminate E1; try discriminate E2; reflexivity.
  - destruct c; try reflexivity. congruence.
Qed.

Section Soundness.

Context {T : Type} `{Seconds T}.
Variable env : Environment T.

(** An attempt raises nothing but the [AttributeError] of a missing
    connection and the [TypeError] of the worker's constructor. *)
Lemma _try_acquire_raises (self self' : RedisLock T) (log log' : Log T)
    (e : Exception) :
  _try_acquire env self log = (Raise e, self', log') ->
  (exists name, e = AttributeError name) \/ e = TypeError "sleep_time".
Proof.
  destruct self as [cc th ch co ps tst ut to ci fwl].
  attempt_paths ps co; try destruct th; intros E; try discriminate E;
    injection E as <- _ _;
    first [right; reflexivity | left; eexists; reflexivity].
Qed.

(** An attempt that returns [True] has had its publish answered 1. *)
Lemma _try_acquire_True (self self' : RedisLock T) (log log' : Log T) :
  _try_acquire env self log = (Return true, self', log') ->
  last_acquire_answer env log' = Some 1%Z.
Proof.
  destruct self as [cc th ch co ps tst ut to ci fwl].
  run_py. destruct ps, co; cbn;
    try (destruct (accepted _); cbn);
    try match goal with
      | |- context [(?n =? 1)%Z] => destruct (Z.eqb_spec n 1) as [E1|E1]; cbn
      end;
    try destruct th; cbn; intros E; try discriminate E;
    injection E as _ <-; cbn [last_acquire_answer]; rewrite E1; reflexivity.
Qed.

Lemma acquire_loop_sound (fuel : nat) (timeout' : option T)
    (check_interval' : T) (fail_when_locked' : bool) (start_time : T)
    (self self' : RedisLock T) (log log' : Log T)
    (r : Result (option (RedisLock T))) :
  acquire_loop env fuel timeout' check_interval' fail_when_locked'
    start_time self log = (r, self', log') ->
  (forall v, r = Return (Some v) -> last_acquire_answer env log' = Some 1%Z)
  /\ (r = Raise (LockException "Timeout while acquiring lock") ->
      exists t log1,
        timeout' = Some t /\ log' = time_time :: log1
        /\ exceeds (elapsed (time_result env log1) start_time) t = true).
Proof.
  revert self log. induction fuel as [|fuel IH]; intros self log E.
  - injection E as <- _ _. split; [intros v E; discriminate E|].
    intros E; discriminate E.
  - rewrite acquire_loop_S in E.
    destruct (_try_acquire env self log) as [[ra self1] log1] eqn:A.
    destruct ra as [[|]|e].
    + injection E as <- _ <-. split.
      * intros _ _. exact (_try_acquire_True _ _ _ _ A).
      * intros E; discriminate E.
    + destruct fail_when_locked'.
      { injection E as <- _ _. split; intros; discriminate. }
      destruct timeout' as [t|]; [destruct (exceeds _ t) eqn:X|].
      * injection E as <- _ <-. split; [intros; discriminate|].
        intros _. exists t, log1. auto.
      * exact (IH _ _ E).
      * exact (IH _ _ E).
    + injection E as <- _ _.
      destruct (_try_acquire_raises _ _ _ _ _ A) as [[name ->] | ->];
        split; intros; discriminate.
Qed.

(** X11: [acquire] does not give up early.  When it raises
    [LockException("Timeout while acquiring lock")], the timeout in force is
    not [None], the last thing [acquire] did was read the clock, and that
    reading minus the reading taken on entry exceeds the timeout. *)
Theorem acquire_timeout_not_early (fuel : nat)
    (timeout_ check_interval_ : option T) (fail_when_locked_ : option bool)
    (self self' : RedisLock T) (log log' : Log T) :
  acquire env fuel timeout_ check_interval_ fail_when_locked_ self log
  = (Raise (LockException "Timeout while acquiring lock"), self', log') ->
  exists t log1,
    match timeout_ with None => timeout self | Some t => Some t end = Some t
    /\ log' = time_time :: log1
    /\ exceeds (elapsed (time_result env log1) (time_result env log)) t
       = true.
Proof.
  intros E. rewrite acquire_unfold in E.
  exact (proj2 (acquire_loop_sound _ _ _ _ _ _ _ _ _ _ E) eq_refl).
Qed.

(** X12: [acquire] and [_try_acquire] never report the lock as acquired
    unless the most recent publish of the acquire notification was answered
    1, whatever state the lock was in and for every number of turns. *)
Theorem acquired_only_on_answer_1 (fuel : nat)
    (timeout_ check_interval_ : option T) (fail_when_locked_ : option bool)
    (self : RedisLock T) (log : Log T) :
  (forall v self' log',
     acquire env fuel timeout_ check_interval_ fail_when_locked_ self log
     = (Return (Some v), self', log') ->
     last_acquire_answer env log' = Some 1%Z)
  /\ (forall self' log',
        _try_acquire env self log = (Return true, self', log') ->
        last_acquire_answer env log' = Some 1%Z).
Proof.
  split.
  - intros v self' log' E. rewrite acquire_unfold in E.
    exact (proj1 (acquire_loop_sound _ _ _ _ _ _ _ _ _ _ E) v eq_refl).
  - intros self' log' E. exact (_try_acquire_True _ _ _ _ E).
Qed.

End Soundness.

Section Spent.

Context {T : Type} `{Seconds T}.
Variable env : Environment T.

(** X13: a lock that owns its connection is spent by its first [release].
    [release] clears [connection] and [pubsub]; no later sequence of calls
    sets the connection again; and every later [_try_acquire] or [acquire]
    stops with the [AttributeError] of [self.connection.pubsub()] on [None]
    before it makes any call to redis, leaving the lock as it is. *)
Theorem owning_lock_is_spent (self : RedisLock T) (log : Log T) (c : Redis) :
  connection self = Some c ->
  close_connection self = true ->
  let '(_, self1, log1) := release self log in
  connection self1 = None
  /\ pubsub self1 = None
  /\ (forall cs, connection (snd (fst (perform_all env cs self1 log1)))
                 = None)
  /\ (forall log2,
        _try_acquire env self1 log2
        = (Raise (AttributeError "pubsub"), self1, log2))
  /\ (forall fuel timeout_ check_interval_ fail_when_locked_,
        acquire env (S fuel) timeout_ check_interval_ fail_when_locked_
          self1 log1
        = (Raise (AttributeError "pubsub"), self1, time_time :: log1)).
Proof.
  intros Hc Hcc. rewrite release_run.
  destruct self as [cc th ch co ps tst ut to ci fwl].
  simpl in Hc, Hcc. subst co cc.
  split; [reflexivity|]. split; [reflexivity|]. split; [|split].
  - intros cs.
    match goal with
    | |- context [perform_all env cs ?s1 ?l1] =>
        pose proof (perform_all_frame env cs s1 l1) as F;
        destruct (perform_all env cs s1 l1) as [[os self2] log2]
    end.
    destruct F as [(_ & _ & [F | [F _]] & _) _]; exact F.
  - intros log2. apply _try_acquire_no_connection; reflexivity.
  - intros fuel timeout_ check_interval_ fail_when_locked_.
    rewrite acquire_unfold, acquire_loop_S.
    rewrite _try_acquire_no_connection; reflexivity.
Qed.

End Spent.

(** * Concrete runs of the further properties *)

(** [acquire(fail_when_locked=True)] on a contended channel raises the
    first of the three errors. *)
Lemma acquire_raises_only_witness :
  connection Example.borrowing = Some 7
  /\ acquire Example.contended 1 None None (Some true) Example.borrowing []
     = (Raise (LockException "Failed to acquire lock"), Example.borrowing,
        [pubsub_unsubscribe 0 "jobs";
         connection_publish 7 "jobs" action_acquire;
         pubsub_get_message 0 1%Z;
         pubsub_subscribe 0 "jobs";
         time_time])
  /\ (LockException "Failed to acquire lock"
      = LockException "Failed to acquire lock" /\ true = true
      \/ LockException "Failed to acquire lock"
         = LockException "Timeout while acquiring lock"
         /\ true = false /\ @None Z <> None
      \/ LockException "Failed to acquire lock" = TypeError "sleep_time"
         /\ thread Example.borrowing = None
         /\ last_acquire_answer Example.contended
              [pubsub_unsubscribe 0 "jobs";
               connection_publish 7 "jobs" action_acquire;
               pubsub_get_message 0 1%Z;
               pubsub_subscribe 0 "jobs";
               time_time]
            = Some 1%Z).
Proof.
  split; [reflexivity|]. split; [reflexivity|].
  exact (acquire_raises_only Example.contended 1 None None (Some true)
           Example.borrowing Example.borrowing []
           [pubsub_unsubscribe 0 "jobs";
            connection_publish 7 "jobs" action_acquire;
            pubsub_get_message 0 1%Z;
            pubsub_subscribe 0 "jobs";
            time_time]
           7 (LockException "Failed to acquire lock") eq_refl eq_refl).
Defined.

(** Three turns on a contended channel without timeout: still running. *)
Lemma acquire_blocks_without_timeout_witness :
  connection Example.borrowing = Some 7
  /\ fst (fst (acquire Example.contended 3 None None None
                 Example.borrowing []))
     = Return None.
Proof.
  split; [reflexivity|].
  refine (proj1 (acquire_blocks_without_timeout Example.contended 3 None None
                   None Example.borrowing [] 7 eq_refl eq_refl eq_refl _)).
  intros log0. discriminate.
Defined.

(** On a quiet channel [acquire] ends in the [TypeError], with a timeout
    of 0 seconds as with any other. *)
Lemma acquire_first_attempt_witness :
  connection Example.borrowing = Some 7
  /\ thread Example.borrowing = None
  /\ attempt_acquired Example.quiet Example.borrowing 7 [time_time] = true
  /\ fst (fst (acquire Example.quiet 1 (Some 0%Z) None (Some true)
                 Example.borrowing []))
     = Raise (TypeError "sleep_time").
Proof.
  split; [reflexivity|]. split; [reflexivity|]. split; [reflexivity|].
  exact (f_equal (fun out => fst (fst out))
           (acquire_first_attempt Example.quiet 0 (Some 0%Z) None (Some true)
              Example.borrowing [] 7 eq_refl eq_refl eq_refl)).
Defined.

(** After an attempt, a release and another attempt no worker runs. *)
Lemma workers_never_leak_witness :
  worker_balance (@nil (Event Z)) = 0%Z
  /\ worker_balance
       (snd (perform_all Example.quiet Example2.calls Example.borrowing []))
     = 0%Z.
Proof.
  split; [reflexivity|].
  pose proof (workers_never_leak Example.quiet Example2.calls
                Example.borrowing [] eq_refl) as W.
  cbn in W. destruct W as [W _]. exact W.
Defined.

(** After the same calls the new pubsub object is not subscribed. *)
Lemma never_subscribed_between_calls_witness :
  pubsub (snd (fst (perform_all Example.quiet Example2.calls
                      Example.borrowing [])))
  = Some 6
  /\ subscribed 6 "jobs"
       (snd (perform_all Example.quiet Example2.calls Example.borrowing []))
     = false.
Proof.
  split; [reflexivity|].
  exact (never_subscribed_between_calls Example.quiet Example2.calls
           Example.borrowing [] (fun p _ => eq_refl) 6 eq_refl).
Defined.

(** Against the counting server, with the pubsub object [0] subscribed,
    the attempt of the other lock returns [False]. *)
Lemma counting_server_attempt_witness :
  subscribers "jobs" [@pubsub_subscribe Z 0 "jobs"] = [0]
  /\ fst (fst (_try_acquire Example2.counting Example2.other
                 [pubsub_subscribe 0 "jobs"]))
     = Return false.
Proof.
  split; [reflexivity|].
  pose proof (counting_server_attempt Example2.counting "jobs"
                (fun _ => eq_refl) (fun _ => eq_refl)
                Example2.other [pubsub_subscribe 0 "jobs"] 8 1
                eq_refl eq_refl eq_refl eq_refl) as W.
  destruct (_try_acquire Example2.counting Example2.other
              [pubsub_subscribe 0 "jobs"]) as [[r self'] log'].
  destruct W as [[_ W] _]. apply W. discriminate.
Defined.

(** [except LockException] catches [AlreadyLocked]. *)
Lemma except_catches_witness :
  ExceptionsPy.AlreadyLocked <> ExceptionsPy.Exception_builtin
  /\ ExceptionsPy.issubclass ExceptionsPy.AlreadyLocked
       ExceptionsPy.LockException = true.
Proof.
  assert (N : ExceptionsPy.AlreadyLocked <> ExceptionsPy.Exception_builtin)
    by discriminate.
  split; [exact N|].
  apply (proj2 (proj1 (except_catches ExceptionsPy.AlreadyLocked
                         ExceptionsPy.LockException N))).
  right. right. right. split; [reflexivity | left; reflexivity].
Defined.

(** On a quiet channel an attempt, a release and another attempt: the
    lock is not acquired. *)
Lemma lock_is_never_acquired_witness :
  thread Example.borrowing = None
  /\ ~ In acquired
       (fst (fst (perform_all Example.quiet Example2.calls
                    Example.borrowing []))).
Proof.
  split; [reflexivity|].
  pose proof (lock_is_never_acquired Example.quiet Example2.calls
                Example.borrowing [] eq_refl) as W.
  destruct (perform_all Example.quiet Example2.calls Example.borrowing [])
    as [[os self'] log'].
  exact (proj1 (proj1 W)).
Defined.

(** The lock that created its connection, after [release]. *)
Lemma owning_lock_is_spent_witness :
  connection Example.owning = Some 0
  /\ close_connection Example.owning = true
  /\ acquire Example.quiet 1 None None None
       (snd (fst (release Example.owning [])))
       (snd (release Example.owning []))
     = (Raise (AttributeError "pubsub"),
        snd (fst (release Example.owning [])),
        time_time :: snd (release Example.owning [])).
Proof.
  split; [reflexivity|]. split; [reflexivity|].
  pose proof (owning_lock_is_spent Example.quiet Example.owning [] 0
                eq_refl eq_refl) as W.
  cbv beta iota zeta delta [release Example.owning] in W.
  destruct W as (_ & _ & _ & _ & W).
  exact (W 0 None None None).
Defined.

(** With a timeout of 2 seconds on a contended channel the error comes at
    the reading of 5 seconds, the entry reading being 0. *)
Lemma acquire_timeout_not_early_witness :
  acquire Example.contended 1 (Some 2%Z) None None Example.borrowing []
  = (Raise (LockException "Timeout while acquiring lock"),
     Example.borrowing,
     [time_time;
      pubsub_unsubscribe 0 "jobs";
      connection_publish 7 "jobs" action_acquire;
      pubsub_get_message 0 1%Z;
      pubsub_subscribe 0 "jobs";
      time_time])
  /\ exists t log1,
       Some 2%Z = Some t
       /\ [time_time;
           pubsub_unsubscribe 0 "jobs";
           connection_publish 7 "jobs" action_acquire;
           pubsub_get_message 0 1%Z;
           pubsub_subscribe 0 "jobs";
           time_time]
          = time_time :: log1
       /\ exceeds
            (elapsed (time_result Example.contended log1)
               (time_result Example.contended []))
            t
          = true.
Proof.
  split; [reflexivity|].
  exact (acquire_timeout_not_early Example.contended 1 (Some 2%Z) None None
           Example.borrowing Example.borrowing []
           [time_time;
            pubsub_unsubscribe 0 "jobs";
            connection_publish 7 "jobs" action_acquire;
            pubsub_get_message 0 1%Z;
            pubsub_subscribe 0 "jobs";
            time_time]
           eq_refl).
Defined.
